(** * ArtSphere seed images: generator, PNG encoder and upload script

    A shallow embedding of [seed_images/generate.py] and the properties its
    specification states about it.

    - Python [int] is [Z]; Python [float] is IEEE binary64, i.e. Rocq's
      primitive [float]; [bytes] is [list byte]; [str] is [string].
    - A raised exception is the [Raise] branch of [result].
    - What Python delegates to the platform ([math.sin], [math.cos],
      [math.atan2], the float power operator, the built-in [hash],
      [zlib.compress]) is a parameter of the development. *)

From Stdlib Require Import ZArith Floats Lia Ascii.
From Stdlib Require Strings.Byte.
From stdpp Require Import base numbers list list_numbers strings pretty gmap.

Set Warnings "-inexact-float".
Set Default Proof Using "Type".
Local Open Scope Z_scope.

(* ===================================================================== *)
(** * Part I: the program *)
(* ===================================================================== *)

(** ** Exceptions *)

Inductive exn : Set :=
  | UnboundLocalError
  | IndexError
  | ValueError
  | OverflowError
  | ZeroDivisionError
  | TypeError
  | StructError        (* struct.error *)
  | OSError
  | FileNotFoundError
  | UnicodeDecodeError.

Inductive result (A : Type) : Type :=
  | Ok (a : A)
  | Raise (e : exn).
Arguments Ok {A} a.
Arguments Raise {A} e.

Definition bind {A B} (m : result A) (k : A → result B) : result B :=
  match m with
  | Ok a => k a
  | Raise e => Raise e
  end.

Declare Scope py_scope.
Delimit Scope py_scope with py.
Notation "'let*' x := m 'in' k" := (bind m (fun x => k))
  (at level 10, x pattern, m at level 100, k at level 200,
   format "'[' 'let*'  x  :=  m  'in'  '/' k ']'") : py_scope.
Local Open Scope py_scope.

(** [for x in xs: s = body(x, s)]: the loop stops at the first exception. *)
Fixpoint for_each {X S} (xs : list X) (body : X → S → result S) (s : S) : result S :=
  match xs with
  | [] => Ok s
  | x :: rest => let* s' := body x s in for_each rest body s'
  end.

(** [range(n)] *)
Definition range (n : Z) : list Z := seqZ 0 n.

(** ** Numbers *)

Definition rgb : Type := Z * Z * Z.

(** Conversion of an [int] operand in mixed arithmetic: the nearest binary64
    (ties to even); [OverflowError] when the integer is too large. *)
Definition float_of_int (n : Z) : result float :=
  let f := SF2Prim (binary_normalize prec emax n 0 false) in
  if PrimFloat.is_infinity f then Raise OverflowError else Ok f.

(** [int(v)] on a float: truncation toward zero; [ValueError] on NaN and
    [OverflowError] on an infinity. *)
Definition int_of_float (v : float) : result Z :=
  match Prim2SF v with
  | S754_nan => Raise ValueError
  | S754_infinity _ => Raise OverflowError
  | S754_zero _ => Ok 0
  | S754_finite s m e =>
      let a := if 0 <=? e then Z.shiftl (Z.pos m) e else Z.shiftr (Z.pos m) (- e) in
      Ok (if s then - a else a)
  end.

(** [a / b] on two ints (true division): the correctly rounded quotient.
    The quotient is computed with at least 55 significant bits and one
    sticky bit, then rounded once. *)
Definition int_truediv (a b : Z) : result float :=
  if b =? 0 then Raise ZeroDivisionError
  else if a =? 0 then Ok (if b <? 0 then PrimFloat.neg_zero else PrimFloat.zero)
  else
    let x := Z.abs a in
    let y := Z.abs b in
    let s := Z.max 0 (Z.log2 y - Z.log2 x + 55) in
    let q := (x * 2 ^ s) / y in
    let sticky := if (x * 2 ^ s) mod y =? 0 then 0 else 1 in
    let m := 2 * q + sticky in
    let neg := xorb (a <? 0) (b <? 0) in
    let f := SF2Prim (binary_normalize prec emax (if neg then - m else m) (- (s + 1)) false) in
    if PrimFloat.is_infinity f then Raise OverflowError else Ok f.

(** [math.sqrt]: IEEE square root, [ValueError] below zero. *)
Definition math_sqrt (v : float) : result float :=
  if PrimFloat.ltb v 0 then Raise ValueError else Ok (PrimFloat.sqrt v).

(** What the platform provides.  The float power operator and the [math]
    functions may raise (a complex result, a range error); [hash] of an int
    or of a pair of ints does not. *)
Class Runtime : Type := {
  math_sin : float → result float;
  math_cos : float → result float;
  math_atan2 : float → float → result float;
  float_pow : float → float → result float;
  hash_int : Z → Z;
  hash_pair : Z → Z → Z
}.

(** ** The artwork table *)

Definition palette : Type := rgb * rgb * rgb.

Definition ARTWORKS : list (string * string * palette) := [
  ("b0000001-0000-0000-0000-000000000001", "sunset",   ((255,120,50), (255,80,120), (40,20,80)));
  ("b0000001-0000-0000-0000-000000000002", "genesis",  ((0,200,255), (100,0,200), (0,50,100)));
  ("b0000001-0000-0000-0000-000000000003", "moscow",   ((20,20,60), (255,200,50), (100,100,200)));
  ("b0000001-0000-0000-0000-000000000004", "chaos",    ((200,0,50), (50,0,200), (255,255,0)));
  ("b0000001-0000-0000-0000-000000000005", "retro",    ((0,200,0), (200,0,200), (50,50,50)));
  ("b0000001-0000-0000-0000-000000000006", "cube",     ((0,100,255), (255,0,100), (0,255,200)));
  ("b0000001-0000-0000-0000-000000000007", "neural",   ((150,0,255), (0,255,150), (255,150,0)));
  ("b0000001-0000-0000-0000-000000000008", "algorithm",((255,200,0), (0,100,200), (200,50,100)));
  ("b0000001-0000-0000-0000-000000000009", "baikal",   ((200,230,255), (100,150,200), (180,220,240)));
  ("b0000001-0000-0000-0000-000000000010", "cosmic",   ((80,0,120), (200,100,255), (0,50,100)))
]%string.

Definition SIZE : Z := 512.

(** ** Colour helpers *)

(** One component of [lerp_color]: [int(a + (b - a) * t)].  The two ints are
    converted to float by the mixed multiplication and addition. *)
Definition lerp_channel (a b : Z) (t : float) : result Z :=
  let* d := float_of_int (b - a) in
  let* a' := float_of_int a in
  int_of_float (a' + d * t)%float.

Definition lerp_color (c1 c2 : rgb) (t : float) : result rgb :=
  let '(r1, g1, b1) := c1 in
  let '(r2, g2, b2) := c2 in
  let* r := lerp_channel r1 r2 t in
  let* g := lerp_channel g1 g2 t in
  let* b := lerp_channel b1 b2 t in
  Ok (r, g, b).

(** [clamp(v)] with the default bounds.  Every call site passes an int, on
    which [int(v)] is the identity. *)
Definition clamp (v : Z) : Z := Z.max 0 (Z.min 255 v).

(** [pixels[i] = v] on a list: a negative index counts from the end, an
    index out of range raises. *)
Definition list_store (l : list Z) (i v : Z) : result (list Z) :=
  let n := Z.of_nat (length l) in
  let j := if i <? 0 then i + n else i in
  if (0 <=? j) && (j <? n) then Ok (<[Z.to_nat j := v]> l) else Raise IndexError.

(** ** The ten per-pixel rules

    [x], [y] are the integer coordinates, [fx = x / w] and [fy = y / h].
    Every float divisor below is a non-zero literal, so the float division
    itself never raises. *)

Section Styles.
Context `{Runtime}.

(** [math.sqrt((fx - cx)**2 + (fy - cy)**2)] *)
Definition distance (fx fy cx cy : float) : result float :=
  let* a := float_pow (fx - cx)%float 2%float in
  let* b := float_pow (fy - cy)%float 2%float in
  math_sqrt (a + b)%float.

Definition sunset (c1 c2 c3 : rgb) (fx fy : float) : result rgb :=
  let* base := lerp_color c3 c1 fy in
  let* sun_dist := distance fx fy 0.5 0.4 in
  let* base :=
    if (sun_dist <? 0.15)%float then
      let t := (1.0 - sun_dist / 0.15)%float in
      let* p := float_pow t 0.5%float in
      lerp_color base (255, 220, 100) p
    else Ok base in
  let* base :=
    if (0.65 <? fy)%float then
      let* s := math_sin (fx * 30 + fy * 10)%float in
      let wave := (s * 0.03)%float in
      let ref_y := (1.0 - (fy - 0.65 + wave) / 0.35)%float in
      let* ref_color := lerp_color c3 c2 ref_y in
      lerp_color base ref_color 0.6%float
    else Ok base in
  Ok base.

Definition genesis (c1 c2 c3 : rgb) (x y : Z) (fx fy : float) : result rgb :=
  let* c := lerp_color c3 c1 (fy * 0.5 + fx * 0.5)%float in
  let* c :=
    for_each [(0.3, 0.3, 0.2); (0.7, 0.5, 0.15); (0.5, 0.7, 0.18)]%float
      (fun '(cx, cy, rad) c =>
         let* d := distance fx fy cx cy in
         if (d <? rad)%float then
           let t := (1.0 - d / rad)%float in
           let* shape_c := lerp_color c2 c1 t in
           lerp_color c shape_c (t * 0.8)%float
         else Ok c) c in
  let '(r, g, b) := c in
  if (x mod 64 <? 2) || (y mod 64 <? 2)
  then Ok (Z.min 255 (r + 40), Z.min 255 (g + 40), Z.min 255 (b + 40))
  else Ok (r, g, b).

Definition moscow (c1 c2 : rgb) (h x y : Z) : result rgb :=
  let c := c1 in
  let bx := (x / 40) * 40 in
  let building_h := 100 + (hash_int bx mod 250) in
  let* c :=
    if (h - building_h <? y) && (2 <? x mod 40) && (x mod 40 <? 38) then
      if (2 <? (x mod 40) mod 8) && ((x mod 40) mod 8 <? 6)
         && (2 <? y mod 12) && (y mod 12 <? 8) then
        let brightness := hash_pair bx (y / 12) mod 3 in
        if 0 <? brightness then
          let* fb := float_of_int brightness in
          lerp_color (30, 30, 50) c2 (0.5 + fb * 0.25)%float
        else Ok (30, 30, 50)
      else Ok (30, 30, 50)
    else Ok c in
  if y <? h - 100 then
    let star_hash := hash_pair (x / 3) (y / 3) in
    if star_hash mod 200 =? 0 then Ok (220, 220, 255) else Ok c
  else Ok c.

Definition chaos (c1 c2 c3 : rgb) (x y : Z) (fx fy : float) : result rgb :=
  let* angle := math_atan2 (fy - 0.5)%float (fx - 0.5)%float in
  let* dist := distance fx fy 0.5 0.5 in
  let* s := math_sin (angle * 3 + dist * 15)%float in
  let swirl := (s * 0.5 + 0.5)%float in
  let* c :=
    if (0.5 <? swirl)%float
    then lerp_color c1 c2 ((swirl - 0.5) * 2)%float
    else lerp_color c3 c1 (swirl * 2)%float in
  let '(r, g, b) := c in
  let noise := (hash_pair (x * 7) (y * 13) mod 30) - 15 in
  Ok (clamp (r + noise), clamp (g + noise), clamp (b + noise)).

Definition retro (c1 c2 : rgb) (x y : Z) : result rgb :=
  let px := x / 16 in
  let py := y / 16 in
  let grid := SIZE / 16 in
  let cx := grid / 2 in
  let cy := grid / 2 in
  let c : rgb := if (px + py) mod 2 =? 0 then (40, 40, 40) else (50, 50, 50) in
  let dx := Z.abs (px - cx) in
  let dy := Z.abs (py - cy) in
  if (dx <? 4) && (dy <? 6) then
    let c :=
      if (dy <? 2) && (dx <? 3) then c1
      else if (2 <=? dy) && (dy <? 5) && (dx <? 3) then c2
      else if (5 <=? dy) && (dx <? 2) then (100, 100, 200)
      else c in
    if (dy =? 1) && (dx =? 1) then Ok (255, 255, 255) else Ok c
  else Ok c.

Definition cube (c1 c2 c3 : rgb) (fx fy : float) : result rgb :=
  let* c := lerp_color c3 (20, 20, 40) fy in
  let cx := 0.5%float in
  let cy := 0.5%float in
  let dx := (fx - cx)%float in
  let dy := (fy - cy)%float in
  let* c :=
    if ((PrimFloat.abs (dx + dy * 0.5) <? 0.2) && (-0.3 <? dy) && (dy <? -0.05))%float
    then lerp_color c1 (200, 200, 255) ((dy + 0.3) / 0.25)%float
    else Ok c in
  let* c :=
    if ((-0.2 <? dx) && (dx <? 0.0) && (-0.05 <? dy) && (dy <? 0.25))%float
    then lerp_color c2 (50, 0, 30) (dy / 0.3)%float
    else Ok c in
  if ((0.0 <? dx) && (dx <? 0.2) && (-0.05 <? dy) && (dy <? 0.25))%float
  then lerp_color c1 c2 (dy / 0.3)%float
  else Ok c.

Definition neural (c1 c2 : rgb) (fx fy : float) : result rgb :=
  for_each (range 5)
    (fun layer c =>
       let* fl := float_of_int layer in
       let lx := (0.1 + fl * 0.2)%float in
       let nodes := 3 + (layer mod 3) in
       for_each (range nodes)
         (fun n c =>
            let* ny := int_truediv (n + 1) (nodes + 1) in
            let* d := distance fx fy lx ny in
            let* c :=
              if (d <? 0.04)%float then
                let t := (1.0 - d / 0.04)%float in
                let* q := int_truediv layer 4 in
                let* node_c := lerp_color c1 c2 q in
                let* p := float_pow t 0.5%float in
                lerp_color c node_c p
              else Ok c in
            if (d <? 0.08)%float then
              let t := (1.0 - d / 0.08)%float in
              let '(r, g, b) := c in
              let* ir := int_of_float (t * 30)%float in
              let r := clamp (r + ir) in
              let* ig := int_of_float (t * 20)%float in
              let g := clamp (g + ig) in
              let* ib := int_of_float (t * 40)%float in
              let b := clamp (b + ib) in
              Ok (r, g, b)
            else Ok c) c)
    (10, 10, 20).

Definition algorithm (c1 c2 c3 : rgb) (fx fy : float) : result rgb :=
  let* dist := distance fx fy 0.5 0.5 in
  let* angle := math_atan2 (fy - 0.5)%float (fx - 0.5)%float in
  let* s1 := math_sin (dist * 40 - angle * 5)%float in
  let spiral := (s1 * 0.5 + 0.5)%float in
  let* s2 := math_sin (dist * 25 + angle * 8)%float in
  let golden := (s2 * 0.5 + 0.5)%float in
  if (0.5 <? spiral)%float
  then lerp_color c1 c2 golden
  else lerp_color c3 c1 golden.

Definition baikal (c1 c2 : rgb) (x y : Z) (fx fy : float) : result rgb :=
  let* base := lerp_color c2 c1 fy in
  let* s1 := math_sin (fy * 30)%float in
  let* s2 := math_sin (fx * 50 + s1 * 3)%float in
  let* s3 := math_sin (fx * 20)%float in
  let* k := math_cos (fy * 40 + s3 * 2)%float in
  let crack := (s2 * k)%float in
  let* base :=
    if (PrimFloat.abs crack <? 0.05)%float
    then lerp_color base (255, 255, 255) 0.7%float
    else Ok base in
  let spot := hash_pair (x / 20) (y / 20) mod 100 in
  if (spot <? 10) && (fy <? 0.4)%float
  then lerp_color base (240, 245, 255) 0.3%float
  else Ok base.

(** [max(0, min(1, v))]: [min] keeps [1] unless [v < 1], [max] keeps [0]
    unless the result is above [0]; the ints [0] and [1] become floats in
    the multiplication that follows. *)
Definition unit_clip (v : float) : float :=
  let m := if (v <? 1)%float then v else 1%float in
  if (0 <? m)%float then m else 0%float.

Definition cosmic (c1 c2 c3 : rgb) (x y : Z) (fx fy : float) : result rgb :=
  let* c :=
    for_each [(0.3, 0.4, 0.3, c2); (0.7, 0.6, 0.25, c3); (0.5, 0.3, 0.2, (255, 100, 50)%Z)]%float
      (fun '(ncx, ncy, nr, nc) c =>
         let* d := distance fx fy ncx ncy in
         if (d <? nr)%float then
           let t := (1.0 - d / nr)%float in
           let* s := math_sin (fx * 30 + fy * 20)%float in
           let* k := math_cos (fx * 15 - fy * 25)%float in
           let noise := (s * k * 0.3)%float in
           let t := unit_clip (t + noise)%float in
           lerp_color c nc (t * 0.7)%float
         else Ok c) c1 in
  let '(r, g, b) := c in
  let star_hash := hash_pair (x * 3) (y * 7) in
  if star_hash mod 300 =? 0 then
    let brightness := 150 + (star_hash mod 105) in
    Ok (clamp (r + brightness), clamp (g + brightness), clamp (b + brightness))
  else Ok (r, g, b).

(** The [if]/[elif] chain on [style].  [None]: no branch ran, so the
    locals [r], [g], [b] were not assigned by this pixel. *)
Definition style_rule (style : string) (colors : palette) (w h x y : Z)
    (fx fy : float) : result (option rgb) :=
  let '(c1, c2, c3) := colors in
  if String.eqb style "sunset" then let* c := sunset c1 c2 c3 fx fy in Ok (Some c)
  else if String.eqb style "genesis" then let* c := genesis c1 c2 c3 x y fx fy in Ok (Some c)
  else if String.eqb style "moscow" then let* c := moscow c1 c2 h x y in Ok (Some c)
  else if String.eqb style "chaos" then let* c := chaos c1 c2 c3 x y fx fy in Ok (Some c)
  else if String.eqb style "retro" then let* c := retro c1 c2 x y in Ok (Some c)
  else if String.eqb style "cube" then let* c := cube c1 c2 c3 fx fy in Ok (Some c)
  else if String.eqb style "neural" then let* c := neural c1 c2 fx fy in Ok (Some c)
  else if String.eqb style "algorithm" then let* c := algorithm c1 c2 c3 fx fy in Ok (Some c)
  else if String.eqb style "baikal" then let* c := baikal c1 c2 x y fx fy in Ok (Some c)
  else if String.eqb style "cosmic" then let* c := cosmic c1 c2 c3 x y fx fy in Ok (Some c)
  else Ok None.

(** The colour the loop body computes for pixel [(x, y)], before clamping. *)
Definition pixel_color (style : string) (colors : palette) (w h x y : Z)
    : result (option rgb) :=
  let* fx := int_truediv x w in
  let* fy := int_truediv y h in
  style_rule style colors w h x y fx fy.

(** One iteration of the inner loop.  With no branch taken, reading [r] in
    [clamp(r)] fails: the style is the same for all pixels, so this is the
    first pixel and the locals have never been bound. *)
Definition paint (style : string) (colors : palette) (w h y x : Z)
    (pixels : list Z) : result (list Z) :=
  let* locals := pixel_color style colors w h x y in
  let idx := (y * w + x) * 3 in
  match locals with
  | None => Raise UnboundLocalError
  | Some (r, g, b) =>
      let* pixels := list_store pixels idx (clamp r) in
      let* pixels := list_store pixels (idx + 1) (clamp g) in
      list_store pixels (idx + 2) (clamp b)
  end.

Definition generate_artwork (style : string) (colors : palette) (w h : Z)
    : result (list Z) :=
  let pixels := replicate (Z.to_nat (w * h * 3)) 0 in
  for_each (range h)
    (fun y pixels => for_each (range w) (paint style colors w h y) pixels)
    pixels.
End Styles.

(** ** Bytes *)

Import Corelib.Init.Byte.

#[global] Instance byte_eq_dec : EqDecision byte := Byte.byte_eq_dec.

Definition byte_val (b : byte) : Z := Z.of_N (Byte.to_N b).

(** The byte with value [n mod 256]. *)
Definition u8 (n : Z) : byte :=
  match Byte.of_N (Z.to_N (n mod 256)) with
  | Some b => b
  | None => x00
  end.

(** [bytes(ints)]: every int must be in [range(256)]. *)
Fixpoint bytes_of_ints (l : list Z) : result (list byte) :=
  match l with
  | [] => Ok []
  | v :: rest =>
      if (0 <=? v) && (v <? 256) then
        let* bs := bytes_of_ints rest in Ok (u8 v :: bs)
      else Raise ValueError
  end.

(** [l[i:j]]: negative bounds count from the end, both are cut to the list. *)
Definition slice {A} (l : list A) (i j : Z) : list A :=
  let n := Z.of_nat (length l) in
  let cut k := if k <? 0 then Z.max (k + n) 0 else Z.min k n in
  take (Z.to_nat (cut j - cut i)) (drop (Z.to_nat (cut i)) l).

(** [struct.pack('>I', n)] and [struct.pack('>B', n)] *)
Definition pack_I (n : Z) : result (list byte) :=
  if (0 <=? n) && (n <? 2 ^ 32)
  then Ok [u8 (n ≫ 24); u8 (n ≫ 16); u8 (n ≫ 8); u8 n]
  else Raise StructError.

Definition pack_B (n : Z) : result (list byte) :=
  if (0 <=? n) && (n <? 2 ^ 8) then Ok [u8 n] else Raise StructError.

(** [struct.pack('>IIBBBBB', a, b, c, d, e, f, g)] *)
Definition pack_IIBBBBB (a b c d e f g : Z) : result (list byte) :=
  let* a := pack_I a in
  let* b := pack_I b in
  let* c := pack_B c in
  let* d := pack_B d in
  let* e := pack_B e in
  let* f := pack_B f in
  let* g := pack_B g in
  Ok (a ++ b ++ c ++ d ++ e ++ f ++ g).

(** ** zlib

    [zlib.crc32] is the CRC-32 of IEEE 802.3 (reflected polynomial
    [0xEDB88320], all-ones preset, complemented result).  The compressor is
    a parameter; [zlib_decompress] is its inverse as a decoder sees it. *)

Definition crc32_bit (c : Z) : Z :=
  if Z.testbit c 0 then Z.lxor (c ≫ 1) 0xEDB88320 else c ≫ 1.

Definition crc32_byte (c : Z) (b : byte) : Z :=
  Nat.iter 8 crc32_bit (Z.lxor c (byte_val b)).

Definition zlib_crc32 (data : list byte) : Z :=
  Z.lxor (foldl crc32_byte 0xFFFFFFFF data) 0xFFFFFFFF.

Class Zlib : Type := {
  zlib_compress : list byte → list byte;       (* zlib.compress(data, 9) *)
  zlib_decompress : list byte → option (list byte)
}.

(** ** The PNG encoder *)

Definition PNG_SIGNATURE : list byte := [x89; x50; x4e; x47; x0d; x0a; x1a; x0a].
Definition IHDR : list byte := [x49; x48; x44; x52].
Definition IDAT : list byte := [x49; x44; x41; x54].
Definition IEND : list byte := [x49; x45; x4e; x44].

Definition chunk (ctype data : list byte) : result (list byte) :=
  let c := ctype ++ data in
  let* len := pack_I (Z.of_nat (length data)) in
  let* crc := pack_I (Z.land (zlib_crc32 c) 0xffffffff) in
  Ok (len ++ c ++ crc).

(** The scanline loop of [make_png]: the body of the inner loop, the body
    of the outer loop, the two loops. *)
Definition append_pixel (pixels : list Z) (w y x : Z) (raw : list byte)
    : result (list byte) :=
  let idx := (y * w + x) * 3 in
  let* px := bytes_of_ints (slice pixels idx (idx + 3)) in
  Ok (raw ++ px).

Definition append_row (pixels : list Z) (w y : Z) (raw : list byte)
    : result (list byte) :=
  let raw := raw ++ [x00] in      (* filter none *)
  for_each (range w) (append_pixel pixels w y) raw.

Definition make_raw (pixels : list Z) (w h : Z) : result (list byte) :=
  for_each (range h) (append_row pixels w) [].

Definition make_png `{Zlib} (pixels : list Z) (w h : Z) : result (list byte) :=
  let sig := PNG_SIGNATURE in
  let* hdr := pack_IIBBBBB w h 8 2 0 0 0 in
  let* ihdr := chunk IHDR hdr in
  let* raw := make_raw pixels w h in
  let* idat := chunk IDAT (zlib_compress raw) in
  let* iend := chunk IEND [] in
  Ok (sig ++ ihdr ++ idat ++ iend).

(** ** A reference PNG decoder

    The reading side of the format, written from the PNG specification and
    used to state the round trip: signature, chunks with their length and
    CRC checked, an [IHDR] first, the [IDAT] payloads concatenated and
    inflated, scanlines reconstructed with the five filter types.  It reads
    8-bit truecolour, non-interlaced images, the only kind the encoder
    writes.  A four-byte PNG integer is at most [2^31 - 1]. *)

Definition PNG_INT_MAX : Z := 2 ^ 31 - 1.

(** Big-endian value of a byte string. *)
Definition be_value (bs : list byte) : Z :=
  foldl (fun acc b => acc * 256 + byte_val b) 0 bs.

Record image : Type := {
  img_width : Z;
  img_height : Z;
  img_bit_depth : Z;
  img_color_type : Z;
  img_pixels : list Z
}.

(** One chunk at the head of [s]: its type, its payload and what follows. *)
Definition read_chunk (s : list byte) : option (list byte * list byte * list byte) :=
  let len := be_value (take 4 s) in
  let ctype := take 4 (drop 4 s) in
  let body := drop 8 s in
  let data := take (Z.to_nat len) body in
  let crc := take 4 (drop (Z.to_nat len) body) in
  if bool_decide (length s < 8)%nat then None
  else if PNG_INT_MAX <? len then None
  else if Z.of_nat (length body) <? len + 4 then None
  else if be_value crc =? Z.land (zlib_crc32 (ctype ++ data)) 0xffffffff
  then Some (ctype, data, drop (Z.to_nat len + 4) body)
  else None.

(** The chunk sequence up to and including [IEND], which must end the
    stream.  [fuel] bounds the number of chunks. *)
Fixpoint read_chunks (fuel : nat) (s : list byte) : option (list (list byte * list byte)) :=
  match fuel with
  | O => None
  | S fuel =>
      match read_chunk s with
      | None => None
      | Some (ctype, data, rest) =>
          if bool_decide (ctype = IEND) then
            if bool_decide (data = [] ∧ rest = []) then Some [(ctype, data)] else None
          else
            match read_chunks fuel rest with
            | Some cs => Some ((ctype, data) :: cs)
            | None => None
            end
      end
  end.

(** The concatenated [IDAT] payloads of the chunks after [IHDR]; a chunk of
    another type is skipped when ancillary (lower-case first letter) and
    refused when critical. *)
Fixpoint idat_stream (cs : list (list byte * list byte)) : option (list byte) :=
  match cs with
  | [] => Some []
  | (ctype, data) :: rest =>
      match idat_stream rest with
      | None => None
      | Some tail =>
          if bool_decide (ctype = IDAT) then Some (data ++ tail)
          else if bool_decide (ctype = IEND) then Some tail
          else if Z.testbit (be_value (take 1 ctype)) 5 then Some tail
          else None
      end
  end.

Definition paeth (a b c : Z) : Z :=
  let p := a + b - c in
  let pa := Z.abs (p - a) in
  let pb := Z.abs (p - b) in
  let pc := Z.abs (p - c) in
  if (pa <=? pb) && (pa <=? pc) then a
  else if pb <=? pc then b
  else c.

(** The predictor of filter type [ft] from the bytes to the left ([a]),
    above ([b]) and above-left ([c]). *)
Definition predictor (ft a b c : Z) : option Z :=
  if ft =? 0 then Some 0
  else if ft =? 1 then Some a
  else if ft =? 2 then Some b
  else if ft =? 3 then Some ((a + b) / 2)
  else if ft =? 4 then Some (paeth a b c)
  else None.

(** Reconstruction of one scanline of three-byte pixels: [done_rev] holds
    the bytes already reconstructed, last first; [i] is the position of the
    head of [line] in the scanline. *)
Fixpoint unfilter_line (ft : Z) (prior : list Z) (i : nat) (line done_rev : list Z)
    : option (list Z) :=
  match line with
  | [] => Some (rev done_rev)
  | v :: rest =>
      let a := nth 2 done_rev 0 in
      let b := nth i prior 0 in
      let c := if (i <? 3)%nat then 0 else nth (i - 3) prior 0 in
      match predictor ft a b c with
      | None => None
      | Some p => unfilter_line ft prior (S i) rest ((v + p) mod 256 :: done_rev)
      end
  end.

Fixpoint unfilter_rows (rows stride : nat) (prior raw : list Z) : option (list Z) :=
  match rows with
  | O => if bool_decide (raw = []) then Some [] else None
  | S rows =>
      match raw with
      | [] => None
      | ft :: rest =>
          if bool_decide (length rest < stride)%nat then None
          else
            match unfilter_line ft prior 0 (take stride rest) [] with
            | None => None
            | Some line =>
                match unfilter_rows rows stride line (drop stride rest) with
                | Some below => Some (line ++ below)
                | None => None
                end
            end
      end
  end.

Definition png_decode `{Zlib} (s : list byte) : option image :=
  if bool_decide (take 8 s = PNG_SIGNATURE) then
    match read_chunks (length s) (drop 8 s) with
    | Some ((ctype, hdr) :: cs) =>
        let w := be_value (take 4 hdr) in
        let h := be_value (take 4 (drop 4 hdr)) in
        if bool_decide (ctype = IHDR ∧ length hdr = 13%nat
                        ∧ 1 ≤ w ≤ PNG_INT_MAX ∧ 1 ≤ h ≤ PNG_INT_MAX
                        ∧ byte_val <$> drop 8 hdr = [8; 2; 0; 0; 0])
        then
          match idat_stream cs with
          | Some z =>
              match zlib_decompress z with
              | Some raw =>
                  match unfilter_rows (Z.to_nat h) (Z.to_nat (3 * w))
                          (replicate (Z.to_nat (3 * w)) 0) (byte_val <$> raw) with
                  | Some px =>
                      Some {| img_width := w; img_height := h; img_bit_depth := 8;
                              img_color_type := 2; img_pixels := px |}
                  | None => None
                  end
              | None => None
              end
          | None => None
          end
        else None
    | _ => None
    end
  else None.

(** ** The script: files, console, child processes *)

Abbreviation files := (gmap string (list byte)).

(** What the outside world sees, in order. *)
Inductive event : Type :=
  | EPrint (line : string)
  | EWrite (path : string) (data : list byte)
  | ERun (argv : list string) (disk : files).  (* a child process and the files it finds *)

Record world : Type := { w_files : files; w_log : list event }.

(** What [capture_output=True, text=True] finds in the two streams of a
    child that ran: its standard output as text, or bytes that the locale's
    encoding cannot decode, in either stream. *)
Inductive captured : Type :=
  | Text (stdout : string)
  | NotText.

Class Host : Type := {
  (* os.path.dirname(os.path.abspath(__file__)) *)
  script_dir : string;
  (* whether open(path, 'wb') and the write succeed *)
  open_wb : string → files → bool;
  (* the streams of a child process, [None] when it cannot be started *)
  run_child : list string → files → option captured
}.

Definition io (A : Type) : Type := world → result A * world.

#[global] Instance io_ret : MRet io := λ A a w, (Ok a, w).
#[global] Instance io_bind : MBind io := λ A B k m w,
  match m w with
  | (Ok a, w') => k a w'
  | (Raise e, w') => (Raise e, w')
  end.

Definition lift {A} (r : result A) : io A := λ w, (r, w).

Definition emit (e : event) (w : world) : world :=
  {| w_files := w_files w; w_log := w_log w ++ [e] |}.

Definition print (line : string) : io () := λ w, (Ok (), emit (EPrint line) w).

Fixpoint for_io {X} (xs : list X) (body : X → io ()) : io () :=
  match xs with
  | [] => mret ()
  | x :: rest => body x;; for_io rest body
  end.

Definition nl : string := String (Ascii.ascii_of_nat 10) "".

(** [os.path.join(a, b)] (POSIX) *)
Definition os_path_join (a b : string) : string :=
  if String.prefix "/" b then b
  else if bool_decide (a = "") || bool_decide (String.get (String.length a - 1) a = Some "/"%char)
  then a +:+ b
  else a +:+ "/" +:+ b.

(** [str.isspace] on a character below 256: the ASCII white space, the
    four separators 28..31, NEL (133) and the no-break space (160); and
    [str.strip()]. *)
Definition py_isspace (c : ascii) : bool :=
  let n := Ascii.nat_of_ascii c in
  ((9 <=? n) && (n <=? 13) || (28 <=? n) && (n <=? 32) || (n =? 133) || (n =? 160))%nat.

Fixpoint lstrip (s : string) : string :=
  match s with
  | String c rest => if py_isspace c then lstrip rest else s
  | EmptyString => EmptyString
  end.

Definition strip (s : string) : string :=
  String.rev (lstrip (String.rev (lstrip s))).

Section Main.
Context `{Host}.

(** [with open(path, 'wb') as f: f.write(data)] *)
Definition write_file (path : string) (data : list byte) : io () := λ w,
  if open_wb path (w_files w)
  then (Ok (), emit (EWrite path data)
                 {| w_files := <[path := data]> (w_files w); w_log := w_log w |})
  else (Raise OSError, w).

(** [subprocess.run(argv, capture_output=True, text=True).stdout]: the
    call raises when the program is not found, and, after the child has
    run, when a captured stream is not text. *)
Definition subprocess_run (argv : list string) : io string := λ w,
  match run_child argv (w_files w) with
  | Some (Text out) => (Ok out, emit (ERun argv (w_files w)) w)
  | Some NotText => (Raise UnicodeDecodeError, emit (ERun argv (w_files w)) w)
  | None => (Raise FileNotFoundError, w)
  end.

Definition png_path (uuid : string) : string :=
  os_path_join script_dir (uuid +:+ ".png").

Definition upload_url (uuid : string) : string :=
  "http://192.168.1.54:9000/artworks/" +:+ uuid +:+ ".png".

Definition curl_argv (uuid : string) : list string :=
  ["curl"; "-s"; "-o"; "/dev/null"; "-w"; "%{http_code}";
   "-X"; "PUT"; upload_url uuid;
   "-H"; "Content-Type: image/png";
   "--data-binary"; "@" +:+ png_path uuid].

(** [main], parametric in its two callees; [main] below fixes them to
    [generate_artwork] and [make_png]. *)
Section Callees.
Variable gen : string → palette → Z → Z → result (list Z).
Variable enc : list Z → Z → Z → result (list byte).

Definition save_one (a : string * string * palette) : io () :=
  let '(uuid, style, colors) := a in
  print ("Generating " +:+ style +:+ " (" +:+ uuid +:+ ")...");;
  pixels ← lift (gen style colors SIZE SIZE);
  png_data ← lift (enc pixels SIZE SIZE);
  let filepath := png_path uuid in
  write_file filepath png_data;;
  print ("  Saved " +:+ filepath +:+ " (" +:+ pretty (length png_data) +:+ " bytes)").

Definition upload_one (a : string * string * palette) : io () :=
  let '(uuid, style, _) := a in
  out ← subprocess_run (curl_argv uuid);
  let status := strip out in
  print ("  " +:+ style +:+ ": HTTP " +:+ status).

Definition main_with : io () :=
  for_io ARTWORKS save_one;;
  print (nl +:+ "Uploading to MinIO...");;
  for_io ARTWORKS upload_one;;
  print (nl +:+ "Done!").
End Callees.

Definition main `{Runtime} `{Zlib} : io () := main_with generate_artwork make_png.
End Main.

(* ===================================================================== *)
(** * Part II: the vocabulary of the statements *)
(* ===================================================================== *)

(** ** Pixel buffers *)

(** The styles of the artwork table, and the pixel a buffer holds at a
    coordinate. *)
Definition STYLES : list string := (λ a : string * string * palette, a.1.2) <$> ARTWORKS.

Definition clamp_rgb (c : rgb) : rgb :=
  let '(r, g, b) := c in (clamp r, clamp g, clamp b).

Definition pixel_index (w x y : Z) : nat := Z.to_nat ((y * w + x) * 3).

Definition stored_at (buf : list Z) (w x y : Z) : option rgb :=
  match buf !! pixel_index w x y, buf !! S (pixel_index w x y),
        buf !! S (S (pixel_index w x y)) with
  | Some r, Some g, Some b => Some (r, g, b)
  | _, _, _ => None
  end.

(** An 8-bit colour channel. *)
Definition channel (v : Z) : Prop := 0 ≤ v ≤ 255.

(** The first [k] pixels, in row-major order, hold their final colour. *)
Definition painted `{Runtime} (style : string) (colors : palette) (w h k : Z)
    (px : list Z) : Prop :=
  Z.of_nat (length px) = w * h * 3
  ∧ ∀ x y, 0 ≤ x < w → 0 ≤ y < h → y * w + x < k →
      ∃ c, pixel_color style colors w h x y = Ok (Some c)
           ∧ stored_at px w x y = Some (clamp_rgb c).

(** Whether a call returned. *)
Definition is_Ok {A} (r : result A) : bool :=
  match r with Ok _ => true | Raise _ => false end.

(** Squared Euclidean distance in RGB space. *)
Definition rgb_dist2 (p q : rgb) : Z :=
  let '(r1, g1, b1) := p in
  let '(r2, g2, b2) := q in
  (r1 - r2) ^ 2 + (g1 - g2) ^ 2 + (b1 - b2) ^ 2.

(** The colour of the sun disc, and the palette of the sunset record. *)
Definition SUN : rgb := (255, 220, 100).
Definition SUNSET_PALETTE : palette := ((255, 120, 50), (255, 80, 120), (40, 20, 80)).

(** ** Platforms *)

(** [p] is the float [c] or one of its two neighbours. *)
Definition near (p c : float) : Prop :=
  p = c ∨ p = PrimFloat.next_up c ∨ p = PrimFloat.next_down c.

(** Accuracy asked of the power operator: on the square of a number of
    magnitude at most one, and on the square root of a number in (0, 1],
    it returns the correctly rounded value or a neighbour of it. *)
Definition pow_accurate `{Runtime} : Prop :=
  (∀ x, (PrimFloat.abs x <=? 1)%float = true →
        ∃ p, float_pow x 2%float = Ok p ∧ near p (x * x)%float)
  ∧ (∀ t, (0 <? t)%float = true → (t <=? 1)%float = true →
        ∃ p, float_pow t 0.5%float = Ok p ∧ near p (PrimFloat.sqrt t)).

(** ** PNG streams *)

(** A 32-bit word. *)
Definition u32 (c : Z) : Prop := 0 ≤ c < 2 ^ 32.

(** A chunk as the format describes it: four bytes of length, the type
    tag, the payload, four bytes of CRC over tag and payload. *)
Definition is_chunk (bs ctype payload : list byte) : Prop :=
  ∃ len crc,
    bs = len ++ ctype ++ payload ++ crc
    ∧ length len = 4%nat ∧ length ctype = 4%nat ∧ length crc = 4%nat
    ∧ be_value len = Z.of_nat (length payload)
    ∧ be_value crc = zlib_crc32 (ctype ++ payload).

(** The header payload: width and height as big-endian 32-bit integers,
    bit depth 8, colour type 2, compression, filter and interlace 0. *)
Definition is_header (hdr : list byte) (w h : Z) : Prop :=
  ∃ wb hb,
    hdr = wb ++ hb ++ [x08; x02; x00; x00; x00]
    ∧ length wb = 4%nat ∧ length hb = 4%nat
    ∧ be_value wb = w ∧ be_value hb = h.

(** What the format asks of the uncompressed image data: for each row, a
    filter byte 0 followed by the bytes of that row. *)
Fixpoint rows_of (rows stride : nat) (data : list byte) : list byte :=
  match rows with
  | O => []
  | S rows => x00 :: take stride data ++ rows_of rows stride (drop stride data)
  end.

Definition scanlines (pixels : list Z) (w h : Z) : list byte :=
  rows_of (Z.to_nat h) (Z.to_nat (3 * w)) (u8 <$> pixels).

(** ** Runs of the script *)

Definition uuid_of (a : string * string * palette) : string := a.1.1.
Definition style_of (a : string * string * palette) : string := a.1.2.

(** The object key of an artwork and the address it is sent to. *)
Definition BASE_URL : string := "http://192.168.1.54:9000".
Definition object_key (uuid : string) : string := "artworks/" +:+ uuid +:+ ".png".

(** The child processes a log records, in order. *)
Definition child_runs (log : list event) : list (list string * files) :=
  omap (λ e, match e with ERun argv disk => Some (argv, disk) | _ => None end) log.

Section Events.
Context `{Host}.
Variable gen : string → palette → Z → Z → result (list Z).
Variable enc : list Z → Z → Z → result (list byte).

(** The PNG bytes of one record. *)
Definition render (a : string * string * palette) : result (list byte) :=
  let* pixels := gen (style_of a) a.2 SIZE SIZE in
  enc pixels SIZE SIZE.

(** What the first pass logs for a record, and what the second pass logs. *)
Definition save_events (a : string * string * palette) (png : list byte) : list event :=
  [ EPrint ("Generating " +:+ style_of a +:+ " (" +:+ uuid_of a +:+ ")...");
    EWrite (png_path (uuid_of a)) png;
    EPrint ("  Saved " +:+ png_path (uuid_of a) +:+ " (" +:+ pretty (length png)
            +:+ " bytes)") ].

Definition upload_events (disk : files) (a : string * string * palette) (out : string)
    : list event :=
  [ ERun (curl_argv (uuid_of a)) disk;
    EPrint ("  " +:+ style_of a +:+ ": HTTP " +:+ strip out) ].

(** The command line, as the interface describes the request: one PUT to
    the base address followed by the object key, the content type, the
    saved file as body. *)
Definition put_command (uuid : string) : list string :=
  ["curl"; "-s"; "-o"; "/dev/null"; "-w"; "%{http_code}";
   "-X"; "PUT"; BASE_URL +:+ "/" +:+ object_key uuid;
   "-H"; "Content-Type: image/png";
   "--data-binary"; "@" +:+ png_path uuid].

End Events.

(** The order the specification states: whatever is written for a later
    record comes after the upload of every earlier record. *)
Definition one_at_a_time `{Host} (log : list event) : Prop :=
  ∀ (i j p q : nat) a b png disk,
    (i < j)%nat → ARTWORKS !! i = Some a → ARTWORKS !! j = Some b →
    log !! p = Some (EWrite (png_path (uuid_of b)) png) →
    log !! q = Some (ERun (curl_argv (uuid_of a)) disk) →
    (q < p)%nat.

(** The file names of the table. *)
Definition file_names : list string := (λ a, uuid_of a +:+ ".png") <$> ARTWORKS.

(** A colour whose three components are 8-bit channels. *)
Definition rgb_channels (c : rgb) : Prop := channel c.1.1 ∧ channel c.1.2 ∧ channel c.2.

(* ===================================================================== *)
(** * Part III: concrete platforms, to run the model on examples *)
(* ===================================================================== *)

(** A small software [math] library: [x ** 2] as a product, [x ** 0.5] as
    the IEEE square root (a negative base gives a complex number, which the
    colour arithmetic refuses with [TypeError]; other exponents are not
    provided), sine by range reduction and a Taylor polynomial, arctangent
    by a rational approximation. *)
Module Soft.
Definition pi : float := 3.141592653589793%float.

Definition pow (x y : float) : result float :=
  if (y =? 2)%float then Ok (x * x)%float
  else if (y =? 0.5)%float then
    if (0 <? x)%float then Ok (PrimFloat.sqrt x)
    else if (x =? 0)%float then Ok 0%float
    else Raise TypeError
  else Raise ValueError.

Definition sin_poly (r : float) : float :=
  let r2 := (r * r)%float in
  (r * (1 - r2 / 6 * (1 - r2 / 20 * (1 - r2 / 42 * (1 - r2 / 72 *
     (1 - r2 / 110 * (1 - r2 / 156 * (1 - r2 / 210 * (1 - r2 / 272)))))))))%float.

Definition sin (x : float) : result float :=
  let* k := int_of_float (x / (2 * pi))%float in
  let* fk := float_of_int k in
  Ok (sin_poly (x - fk * (2 * pi))%float).

Definition cos (x : float) : result float := sin (x + pi / 2)%float.

Definition atan_unit (z : float) : float := (z / (1 + 0.28 * z * z))%float.

Definition atan2 (y x : float) : result float :=
  if (PrimFloat.abs y <=? PrimFloat.abs x)%float then
    if (x =? 0)%float then Ok 0%float
    else if (0 <? x)%float then Ok (atan_unit (y / x))
    else if (y <? 0)%float then Ok (atan_unit (y / x) - pi)%float
    else Ok (atan_unit (y / x) + pi)%float
  else if (0 <? y)%float then Ok (pi / 2 - atan_unit (x / y))%float
  else Ok (- (pi / 2) - atan_unit (x / y))%float.

(** Integer hashing in the manner of CPython on a 64-bit machine: an int
    modulo the Mersenne prime [2^61 - 1], a tuple by multiply-rotate
    mixing of its lanes. *)
Definition hash_of_int (n : Z) : Z :=
  let r := Z.sgn n * (Z.abs n mod (2 ^ 61 - 1)) in
  if r =? -1 then -2 else r.

Definition rotl31 (v : Z) : Z :=
  Z.lor ((v ≪ 31) mod 2 ^ 64) (v ≫ 33).

Definition mix (acc lane : Z) : Z :=
  (rotl31 ((acc + (lane mod 2 ^ 64) * 14029467366897019727) mod 2 ^ 64)
     * 11400714785074694791) mod 2 ^ 64.

Definition hash_of_pair (a b : Z) : Z :=
  let acc := mix (mix 2870177450012600261 (hash_of_int a)) (hash_of_int b) in
  let acc := (acc + Z.lxor 2 (Z.lxor 2870177450012600261 3527539)) mod 2 ^ 64 in
  if acc =? 2 ^ 64 - 1 then 1546275796
  else if acc <? 2 ^ 63 then acc else acc - 2 ^ 64.

Definition runtime : Runtime := {|
  math_sin := sin;
  math_cos := cos;
  math_atan2 := atan2;
  float_pow := pow;
  hash_int := hash_of_int;
  hash_pair := hash_of_pair
|}.
End Soft.

(** A zlib codec that only stores: the two-byte header, deflate blocks of
    type 0 of at most 65535 bytes, the Adler-32 of the data. *)
Module Stored.
Definition adler32 (data : list byte) : Z :=
  let '(a, b) :=
    foldl (fun '(a, b) x =>
             let a' := (a + byte_val x) mod 65521 in (a', (b + a') mod 65521))
          (1, 0) data in
  Z.lor (b ≪ 16) a.

Definition le16 (n : Z) : list byte := [u8 n; u8 (n ≫ 8)].

Fixpoint blocks (fuel : nat) (data : list byte) : list byte :=
  let n := Z.of_nat (length data) in
  match fuel with
  | S fuel =>
      if 65535 <? n then
        [x00] ++ le16 65535 ++ le16 0 ++ take (Z.to_nat 65535) data
          ++ blocks fuel (drop (Z.to_nat 65535) data)
      else [x01] ++ le16 n ++ le16 (65535 - n) ++ data
  | O => [x01] ++ le16 n ++ le16 (65535 - n) ++ data
  end.

Definition compress (data : list byte) : list byte :=
  [x78; x01] ++ blocks (length data) data
    ++ [u8 (adler32 data ≫ 24); u8 (adler32 data ≫ 16);
        u8 (adler32 data ≫ 8); u8 (adler32 data)].

Fixpoint unblocks (fuel : nat) (s : list byte) : option (list byte * list byte) :=
  match fuel, s with
  | S fuel, hd :: l0 :: l1 :: n0 :: n1 :: rest =>
      let len := byte_val l0 + 256 * byte_val l1 in
      let nlen := byte_val n0 + 256 * byte_val n1 in
      if bool_decide (len + nlen = 65535 ∧ (Z.to_nat len ≤ length rest)%nat) then
        if bool_decide (hd = x01) then
          Some (take (Z.to_nat len) rest, drop (Z.to_nat len) rest)
        else if bool_decide (hd = x00) then
          match unblocks fuel (drop (Z.to_nat len) rest) with
          | Some (more, tail) => Some (take (Z.to_nat len) rest ++ more, tail)
          | None => None
          end
        else None
      else None
  | _, _ => None
  end.

Definition decompress (s : list byte) : option (list byte) :=
  match s with
  | cmf :: flg :: body =>
      if bool_decide (byte_val cmf mod 16 = 8 ∧ (byte_val cmf * 256 + byte_val flg) mod 31 = 0
                      ∧ Z.testbit (byte_val flg) 5 = false) then
        match unblocks (length body) body with
        | Some (data, tail) =>
            if bool_decide (length tail = 4%nat ∧ be_value tail = adler32 data)
            then Some data else None
        | None => None
        end
      else None
  | _ => None
  end.

Definition zlib : Zlib := {| zlib_compress := compress; zlib_decompress := decompress |}.
End Stored.

(** A host where every write succeeds and the child answers [200]. *)
Definition quiet_host (dir : string) : Host := {|
  script_dir := dir;
  open_wb := λ _ _, true;
  run_child := λ _ _, Some (Text ("200" +:+ nl))
|}.

Definition empty_world : world := {| w_files := ∅; w_log := [] |}.

(** Callees that return at once, to run the script without rendering ten
    512 x 512 images. *)
Definition blank_gen (style : string) (colors : palette) (w h : Z) : result (list Z) :=
  Ok [].
Definition blank_enc (pixels : list Z) (w h : Z) : result (list byte) :=
  Ok PNG_SIGNATURE.

(** A 2 x 2 image. *)
Definition tiny_pixels : list Z := [255; 0; 0; 0; 255; 0; 0; 0; 255; 7; 8; 9].

(** One run of the script, on a host where everything succeeds. *)
Definition demo_host : Host := quiet_host "/srv/seed".
Abbreviation demo_run := (@main_with demo_host blank_gen blank_enc empty_world).



(* ===================================================================== *)
(** * Part IV: properties *)
(* ===================================================================== *)

(** ** Loops *)

Lemma bind_Ok {A B} (m : result A) (k : A → result B) b :
  bind m k = Ok b → ∃ a, m = Ok a ∧ k a = Ok b.
Proof. destruct m as [a|e]; simpl; [eauto | discriminate]. Qed.

Lemma for_each_app {X S} (xs ys : list X) (body : X → S → result S) s :
  for_each (xs ++ ys) body s = let* s' := for_each xs body s in for_each ys body s'.
Proof.
  revert s. induction xs as [|x xs IH]; intros s; simpl; [done|].
  destruct (body x s); simpl; auto.
Qed.

(** An invariant kept by every successful iteration holds at the end. *)
Lemma for_each_invariant {X S} (P : S → Prop) (xs : list X) body s s' :
  (∀ x s t, x ∈ xs → P s → body x s = Ok t → P t) →
  P s → for_each xs body s = Ok s' → P s'.
Proof.
  revert s. induction xs as [|x xs IH]; intros s Hstep Hs Hrun; simpl in Hrun.
  - by injection Hrun as <-.
  - apply bind_Ok in Hrun as (t & Hx & Hrest).
    eapply IH; [|eapply Hstep; [left|..]; eauto|done].
    intros; eapply Hstep; eauto; by right.
Qed.

Lemma range_succ n : 0 ≤ n → range (n + 1) = range n ++ [n].
Proof.
  intros. unfold range. rewrite seqZ_app by lia.
  rewrite (seqZ_cons (0 + n)) by lia. rewrite (seqZ_nil _ (Z.pred 1)) by lia.
  by rewrite Z.add_0_l.
Qed.

(** A counting invariant over [for i in range(n)]. *)
Lemma for_range_invariant {S} (P : Z → S → Prop) n (body : Z → S → result S) s s' :
  0 ≤ n →
  (∀ i s t, 0 ≤ i < n → P i s → body i s = Ok t → P (i + 1) t) →
  P 0 s → for_each (range n) body s = Ok s' → P n s'.
Proof.
  intros Hn. revert s'. pattern n. apply natlike_ind; [| |done].
  - intros s' _ H0 Hrun. unfold range in Hrun. rewrite seqZ_nil in Hrun by lia.
    by injection Hrun as <-.
  - intros m Hm IH s' Hstep H0 Hrun.
    replace (Z.succ m) with (m + 1) in * by lia.
    rewrite range_succ, for_each_app in Hrun by done.
    apply bind_Ok in Hrun as (t & Ht & Hlast). simpl in Hlast.
    apply bind_Ok in Hlast as (u & Hu & [= <-]).
    eapply Hstep; [| |done]; [lia|].
    apply IH; [|done..]. intros; eapply Hstep; eauto; lia.
Qed.

(** The same loop runs to the end when every iteration succeeds. *)
Lemma for_range_total {S} (P : Z → S → Prop) n (body : Z → S → result S) s :
  0 ≤ n →
  (∀ i s, 0 ≤ i < n → P i s → ∃ t, body i s = Ok t ∧ P (i + 1) t) →
  P 0 s → ∃ s', for_each (range n) body s = Ok s' ∧ P n s'.
Proof.
  intros Hn. pattern n. apply natlike_ind; [| |done].
  - intros _ H0. exists s. unfold range. by rewrite seqZ_nil by lia.
  - intros m Hm IH Hstep H0.
    replace (Z.succ m) with (m + 1) in * by lia.
    destruct IH as (t & Ht & HP); [|done|].
    { intros; apply Hstep; [lia|done]. }
    destruct (Hstep m t) as (u & Hu & HPu); [lia|done|].
    exists u. rewrite range_succ, for_each_app, Ht by done. simpl. by rewrite Hu.
Qed.

(** ** The pattern generator *)

Lemma clamp_channel v : channel (clamp v).
Proof. unfold channel, clamp. lia. Qed.

Lemma list_store_Ok l i v l' :
  0 ≤ i → list_store l i v = Ok l' →
  (Z.to_nat i < length l)%nat ∧ l' = <[Z.to_nat i := v]> l.
Proof.
  unfold list_store. intros Hi.
  destruct (Z.ltb_spec i 0); [lia|].
  destruct (Z.leb_spec 0 i); [|lia].
  destruct (Z.ltb_spec i (Z.of_nat (length l))); simpl; [|discriminate].
  intros [= <-]. split; [lia|done].
Qed.

Lemma list_store_in_range l i v :
  0 ≤ i < Z.of_nat (length l) → list_store l i v = Ok (<[Z.to_nat i := v]> l).
Proof.
  unfold list_store. intros Hi.
  destruct (Z.ltb_spec i 0); [lia|].
  destruct (Z.leb_spec 0 i); [|lia].
  by destruct (Z.ltb_spec i (Z.of_nat (length l))); [|lia].
Qed.

Section Generator.
Context `{Runtime}.

(** What a successful iteration of the inner loop did. *)
Lemma paint_Ok style colors w h y x px px' :
  0 ≤ y * w + x →
  paint style colors w h y x px = Ok px' →
  ∃ r g b,
    pixel_color style colors w h x y = Ok (Some (r, g, b))
    ∧ (pixel_index w x y + 2 < length px)%nat
    ∧ px' = <[S (S (pixel_index w x y)) := clamp b]>
              (<[S (pixel_index w x y) := clamp g]>
                 (<[pixel_index w x y := clamp r]> px)).
Proof.
  intros Hidx. unfold paint. intros Hrun.
  apply bind_Ok in Hrun as ([[[r g] b]|] & Hc & Hrun); [|discriminate].
  apply bind_Ok in Hrun as (p1 & H1 & Hrun).
  apply bind_Ok in Hrun as (p2 & H2 & H3).
  apply list_store_Ok in H1 as [L1 ->]; [|lia].
  apply list_store_Ok in H2 as [L2 ->]; [|lia].
  apply list_store_Ok in H3 as [L3 ->]; [|lia].
  rewrite !length_insert in *.
  exists r, g, b. unfold pixel_index.
  replace (Z.to_nat ((y * w + x) * 3 + 1)) with (S (Z.to_nat ((y * w + x) * 3))) in * by lia.
  replace (Z.to_nat ((y * w + x) * 3 + 2)) with (S (S (Z.to_nat ((y * w + x) * 3)))) in * by lia.
  split; [done|]. split; [lia|done].
Qed.

Lemma paint_success style colors w h y x px c :
  0 ≤ y * w + x →
  (y * w + x) * 3 + 2 < Z.of_nat (length px) →
  pixel_color style colors w h x y = Ok (Some c) →
  ∃ px', paint style colors w h y x px = Ok px'.
Proof.
  intros Hidx Hlen Hc. unfold paint. rewrite Hc. simpl.
  destruct c as [[r g] b].
  rewrite list_store_in_range by lia. simpl.
  rewrite list_store_in_range by (rewrite length_insert; lia). simpl.
  rewrite list_store_in_range by (rewrite !length_insert; lia). eauto.
Qed.

Lemma paint_length style colors w h y x px px' :
  0 ≤ y * w + x → paint style colors w h y x px = Ok px' → length px' = length px.
Proof.
  intros Hidx Hrun. apply paint_Ok in Hrun as (r & g & b & _ & _ & ->); [|done].
  by rewrite !length_insert.
Qed.

Lemma paint_channels style colors w h y x px px' :
  0 ≤ y * w + x → Forall channel px →
  paint style colors w h y x px = Ok px' → Forall channel px'.
Proof.
  intros Hidx Hpx Hrun. apply paint_Ok in Hrun as (r & g & b & _ & _ & ->); [|done].
  repeat (apply Forall_insert; [|apply clamp_channel]). done.
Qed.

Lemma range_bounds i n : i ∈ range n → 0 ≤ i < n.
Proof.
  unfold range. intros Hi. apply list_elem_of_lookup in Hi as [k Hk].
  apply lookup_seqZ in Hk. lia.
Qed.

(** A property of the buffer that every store keeps is a property of the
    result. *)
Lemma generate_artwork_invariant (P : list Z → Prop) style colors w h buf :
  (∀ x y px px', 0 ≤ x < w → 0 ≤ y < h → P px →
     paint style colors w h y x px = Ok px' → P px') →
  P (replicate (Z.to_nat (w * h * 3)) 0) →
  generate_artwork style colors w h = Ok buf → P buf.
Proof.
  intros Hstep Hinit Hrun. unfold generate_artwork in Hrun.
  eapply (for_each_invariant P); [|exact Hinit|exact Hrun].
  intros y px px' Hy%range_bounds Hpx Hrow.
  eapply (for_each_invariant P); [|exact Hpx|exact Hrow].
  intros x q q' Hx%range_bounds Hq Hpaint. eapply Hstep; eauto.
Qed.

(** C4.  The returned buffer has exactly [w * h * 3] entries. *)
Theorem generate_artwork_length style colors w h buf :
  In style STYLES → 1 ≤ w → 1 ≤ h →
  generate_artwork style colors w h = Ok buf →
  Z.of_nat (length buf) = w * h * 3.
Proof.
  intros _ Hw Hh Hrun.
  apply (generate_artwork_invariant
           (λ px, Z.of_nat (length px) = w * h * 3)) in Hrun; [done| |].
  - intros x y px px' Hx Hy Hlen Hpaint.
    apply paint_length in Hpaint; [congruence | nia].
  - rewrite length_replicate. nia.
Qed.

(** C3.  Every entry of the returned buffer is in [0, 255]. *)
Theorem generate_artwork_channels style colors w h buf :
  In style STYLES → 1 ≤ w → 1 ≤ h →
  generate_artwork style colors w h = Ok buf →
  Forall channel buf.
Proof.
  intros _ Hw Hh Hrun.
  apply (generate_artwork_invariant (Forall channel)) in Hrun; [done| |].
  - intros x y px px' Hx Hy Hpx Hpaint.
    eapply paint_channels; [|done..]. nia.
  - apply Forall_replicate. unfold channel. lia.
Qed.
End Generator.

Lemma row_major_inj w x y x' y' :
  0 ≤ x < w → 0 ≤ x' < w → y * w + x = y' * w + x' → x = x' ∧ y = y'.
Proof.
  intros Hx Hx' E.
  assert (y = y') as ->; [|lia].
  destruct (Z.lt_trichotomy y y') as [L|[L|L]]; [|done|].
  - assert (y * w + w ≤ y' * w) by nia. lia.
  - assert (y' * w + w ≤ y * w) by nia. lia.
Qed.

Lemma triple_insert_same (px : list Z) i r g b :
  (i + 2 < length px)%nat →
  let px' := <[S (S i) := b]> (<[S i := g]> (<[i := r]> px)) in
  px' !! i = Some r ∧ px' !! S i = Some g ∧ px' !! S (S i) = Some b.
Proof.
  intros Hi px'. unfold px'. repeat split.
  - rewrite !list_lookup_insert_ne by lia. apply list_lookup_insert_eq. lia.
  - rewrite list_lookup_insert_ne by lia. apply list_lookup_insert_eq.
    rewrite length_insert. lia.
  - apply list_lookup_insert_eq. rewrite !length_insert. lia.
Qed.

Lemma triple_insert_below (px : list Z) i j r g b :
  (j < i)%nat →
  <[S (S i) := b]> (<[S i := g]> (<[i := r]> px)) !! j = px !! j.
Proof. intros. by rewrite !list_lookup_insert_ne by lia. Qed.

Section GeneratorPixels.
Context `{Runtime}.
Variables (style : string) (colors : palette) (w h : Z).

Lemma painted_step x y px px' :
  0 ≤ x < w → 0 ≤ y < h →
  painted style colors w h (y * w + x) px →
  paint style colors w h y x px = Ok px' →
  painted style colors w h (y * w + x + 1) px'.
Proof.
  intros Hx Hy [Hlen Hdone] Hpaint.
  apply paint_Ok in Hpaint as (r & g & b & Hc & Hin & ->); [|nia].
  split; [by rewrite !length_insert|].
  intros x' y' Hx' Hy' Hk.
  destruct (decide (y' * w + x' = y * w + x)) as [E|NE].
  - apply row_major_inj in E as [-> ->]; [|done..].
    exists (r, g, b). split; [done|].
    destruct (triple_insert_same px (pixel_index w x y) (clamp r) (clamp g) (clamp b) Hin)
      as (E0 & E1 & E2).
    unfold stored_at. simpl in *. by rewrite E0, E1, E2.
  - destruct (Hdone x' y') as (c & Hc' & Hst); [done..|lia|].
    exists c. split; [done|].
    assert (pixel_index w x' y' + 2 < pixel_index w x y)%nat.
    { unfold pixel_index. assert (0 ≤ y' * w + x') by nia. lia. }
    unfold stored_at in *.
    by rewrite !(triple_insert_below px (pixel_index w x y)) by lia.
Qed.

(** The buffer [generate_artwork] returns holds, at every pixel, the
    clamped colour the style computes there. *)
Lemma generate_artwork_stores buf x y :
  generate_artwork style colors w h = Ok buf →
  0 ≤ x < w → 0 ≤ y < h →
  ∃ c, pixel_color style colors w h x y = Ok (Some c)
       ∧ stored_at buf w x y = Some (clamp_rgb c).
Proof.
  intros Hrun Hx Hy.
  assert (painted style colors w h (h * w) buf) as [_ Hall].
  { unfold generate_artwork in Hrun.
    apply (for_range_invariant (λ y px, painted style colors w h (y * w) px)) in Hrun; [done|lia| |].
    - intros i px px' Hi Hpx Hrow.
      apply (for_range_invariant (λ x q, painted style colors w h (i * w + x) q)) in Hrow.
      + by replace ((i + 1) * w) with (i * w + w) by lia.
      + lia.
      + intros j q q' Hj Hq Hpaint.
        replace (i * w + (j + 1)) with (i * w + j + 1) by lia.
        by apply (painted_step j i q).
      + by rewrite Z.add_0_r.
    - split; [rewrite length_replicate; nia|]. intros; nia. }
  apply Hall; [done..|nia].
Qed.

(** It returns a buffer as soon as the style yields a colour at every
    pixel. *)
Lemma generate_artwork_total :
  0 ≤ w → 0 ≤ h →
  (∀ x y, 0 ≤ x < w → 0 ≤ y < h →
     ∃ c, pixel_color style colors w h x y = Ok (Some c)) →
  ∃ buf, generate_artwork style colors w h = Ok buf.
Proof.
  intros Hw Hh Hall. unfold generate_artwork.
  pose (P := λ (_ : Z) (px : list Z), Z.of_nat (length px) = w * h * 3).
  destruct (for_range_total P h
    (λ y px, for_each (range w) (paint style colors w h y) px)
    (replicate (Z.to_nat (w * h * 3)) 0)) as (buf & Hbuf & _); [done| | |by eauto].
  - intros y px Hy Hpx.
    destruct (for_range_total P w (paint style colors w h y) px)
      as (px' & Hrow & Hlen); [done| |done|by eauto].
    intros x q Hx Hq.
    destruct (Hall x y) as (c & Hc); [done..|].
    destruct (paint_success style colors w h y x q c) as (q' & Hq'); [nia| |done|].
    { unfold P in Hq. nia. }
    exists q'. split; [done|]. unfold P in *.
    apply paint_length in Hq'; [lia|nia].
  - unfold P. rewrite length_replicate. nia.
Qed.
End GeneratorPixels.

Section GeneratorStyles.
Context `{Runtime}.

Lemma int_truediv_zero b : b ≠ 0 → 0 < b → int_truediv 0 b = Ok 0%float.
Proof.
  intros Hb Hpos. unfold int_truediv.
  destruct (Z.eqb_spec b 0); [done|]. simpl.
  by destruct (Z.ltb_spec b 0); [lia|].
Qed.

Lemma style_rule_unknown style colors w h x y fx fy :
  ¬ In style STYLES → style_rule style colors w h x y fx fy = Ok None.
Proof.
  intros Hstyle. unfold style_rule. destruct colors as [[c1 c2] c3].
  repeat match goal with
  | |- context [String.eqb style ?s] =>
      destruct (String.eqb_spec style s) as [->|_];
      [exfalso; apply Hstyle; vm_compute; tauto|]
  end.
  done.
Qed.

(** C10.  A style outside the table makes the call fail at its first
    store, where the never-assigned colour variables are read; no buffer
    is returned. *)
Theorem generate_artwork_unknown_style style colors w h :
  ¬ In style STYLES → 1 ≤ w → 1 ≤ h →
  generate_artwork style colors w h = Raise UnboundLocalError.
Proof.
  intros Hstyle Hw Hh. unfold generate_artwork, range.
  rewrite (seqZ_cons 0 h) by lia. simpl.
  rewrite (seqZ_cons 0 w) by lia. simpl.
  unfold paint at 1, pixel_color.
  rewrite !int_truediv_zero by lia. simpl.
  by rewrite style_rule_unknown.
Qed.
End GeneratorStyles.

(** ** Two end-to-end scenarios *)

Lemma int_truediv_512 x : 0 ≤ x < 512 → ∃ f, int_truediv x 512 = Ok f.
Proof.
  intros Hx.
  assert (forallb (λ i, is_Ok (int_truediv i 512)) (range 512) = true) as Hall
    by (vm_compute; reflexivity).
  rewrite forallb_forall in Hall.
  specialize (Hall x). destruct (int_truediv x 512); [eauto|].
  discriminate Hall. apply list_elem_of_In. unfold range.
  apply list_elem_of_lookup. exists (Z.to_nat x). apply lookup_seqZ. lia.
Qed.

Lemma coarse_cell_16 x : x / 16 = 16 → 256 ≤ x < 272.
Proof.
  intros Hx. pose proof (Z.div_mod x 16). pose proof (Z.mod_pos_bound x 16). lia.
Qed.

Section Retro.
Context `{Runtime}.

Lemma retro_record uuid colors :
  In (uuid, "retro", colors) ARTWORKS →
  colors = ((0, 200, 0), (200, 0, 200), (50, 50, 50)).
Proof.
  simpl. intros Hrec.
  repeat (destruct Hrec as [Hrec|Hrec]; [by injection Hrec|]). done.
Qed.

Lemma retro_sprite_head c1 c2 x y :
  x / 16 = 16 → y / 16 = 16 → retro c1 c2 x y = Ok c1.
Proof. intros Hx Hy. unfold retro. rewrite Hx, Hy. reflexivity. Qed.

Lemma retro_pixel_color colors x y :
  0 ≤ x < 512 → 0 ≤ y < 512 →
  ∃ c, pixel_color "retro" colors 512 512 x y = Ok (Some c)
       ∧ retro colors.1.1 colors.1.2 x y = Ok c.
Proof.
  intros Hx Hy. unfold pixel_color.
  destruct (int_truediv_512 x Hx) as [fx ->].
  destruct (int_truediv_512 y Hy) as [fy ->].
  destruct colors as [[c1 c2] c3]. simpl.
  unfold retro.
  repeat match goal with |- context [if ?b then _ else _] => destruct b end; eauto.
Qed.

(** At 512 x 512 the retro artwork is generated for every palette, and
    every pixel of the coarse cell (16, 16) holds the head colour of the
    sprite, the first colour of the palette. *)
Lemma retro_centre_cell_head colors x y :
  x / 16 = 16 → y / 16 = 16 →
  ∃ buf,
    generate_artwork "retro" colors 512 512 = Ok buf
    ∧ stored_at buf 512 x y = Some (clamp_rgb colors.1.1).
Proof.
  intros Hx Hy.
  apply coarse_cell_16 in Hx as Hx'. apply coarse_cell_16 in Hy as Hy'.
  destruct (generate_artwork_total "retro" colors 512 512) as [buf Hbuf]; [lia..| |].
  { intros i j Hi Hj. destruct (retro_pixel_color colors i j) as (c & Hc & _); eauto. }
  destruct (generate_artwork_stores _ _ _ _ buf x y Hbuf) as (c & Hc & Hst); [lia..|].
  destruct (retro_pixel_color colors x y) as (c' & Hc' & Hretro); [lia..|].
  rewrite retro_sprite_head in Hretro by assumption.
  rewrite Hc in Hc'. injection Hc' as ->. injection Hretro as <-.
  exists buf. split; [exact Hbuf|exact Hst].
Qed.

(** C9 (amended).  At 512 x 512 the retro artwork is generated for every
    palette, and every pixel of the coarse cell (16, 16) holds the head
    colour of the sprite - the first colour of the palette, clamped - and
    not the checkerboard value of that cell.  It differs from both
    checkerboard colours when the head colour does, as it does for the
    retro record of the table. *)
Theorem retro_centre_cell_is_sprite colors x y :
  x / 16 = 16 → y / 16 = 16 →
  ∃ buf c,
    generate_artwork "retro" colors 512 512 = Ok buf
    ∧ stored_at buf 512 x y = Some c
    ∧ c = clamp_rgb colors.1.1
    ∧ (clamp_rgb colors.1.1 ≠ (40, 40, 40) → clamp_rgb colors.1.1 ≠ (50, 50, 50) →
       c ≠ (40, 40, 40) ∧ c ≠ (50, 50, 50))
    ∧ (∀ uuid, In (uuid, "retro", colors) ARTWORKS →
       c ≠ (40, 40, 40) ∧ c ≠ (50, 50, 50)).
Proof.
  intros Hx Hy.
  assert (∀ uuid, In (uuid, "retro", colors) ARTWORKS →
            clamp_rgb colors.1.1 ≠ (40, 40, 40) ∧ clamp_rgb colors.1.1 ≠ (50, 50, 50))
    as Htable.
  { intros uuid Hrec. apply retro_record in Hrec. rewrite Hrec. split; discriminate. }
  destruct (retro_centre_cell_head colors x y Hx Hy) as (buf & Hbuf & Hst).
  exists buf, (clamp_rgb colors.1.1).
  split; [exact Hbuf|]. split; [exact Hst|]. split; [reflexivity|].
  split; [intros H40 H50; split; assumption|exact Htable].
Qed.
End Retro.

Section Sunset.
Context `{Runtime}.
Hypothesis Hpow : pow_accurate.

(** Evaluate a closed subterm in place. *)
Ltac crunch t := let r := eval vm_compute in t in change t with r.

Ltac square :=
  match goal with
  | |- context [float_pow ?x 2%float] =>
      let p := fresh "p" in let E := fresh "E" in
      destruct (proj1 Hpow x) as (p & E & [-> | [-> | ->]]);
      [vm_compute; reflexivity | rewrite E; clear E; cbn [bind] ..]
  end.

Ltac root :=
  match goal with
  | |- context [float_pow ?t 0.5%float] =>
      let p := fresh "p" in let E := fresh "E" in
      destruct (proj2 Hpow t) as (p & E & [-> | [-> | ->]]);
      [vm_compute; reflexivity | vm_compute; reflexivity | rewrite E; clear E; cbn [bind] ..]
  end.

Ltac closed_step :=
  match goal with
  | |- context [math_sqrt ?v] => crunch (math_sqrt v)
  | |- context [lerp_color ?a ?b ?t] => crunch (lerp_color a b t)
  | |- context [PrimFloat.ltb ?a ?b] => crunch (PrimFloat.ltb a b)
  | |- context [int_truediv ?a ?b] => crunch (int_truediv a b)
  end; cbn [bind].

Lemma sunset_far_corner :
  pixel_color "sunset" SUNSET_PALETTE 512 512 0 0 = Ok (Some (40, 20, 80)).
Proof using Hpow.
  unfold pixel_color, style_rule, SUNSET_PALETTE, sunset, distance.
  do 3 closed_step.
  square; square; repeat closed_step; reflexivity.
Qed.

Lemma sunset_sun_centre :
  ∃ p, pixel_color "sunset" SUNSET_PALETTE 512 512 256 204 = Ok (Some p)
       ∧ rgb_dist2 (clamp_rgb p) SUN < rgb_dist2 (clamp_rgb (40, 20, 80)) SUN.
Proof using Hpow.
  unfold pixel_color, style_rule, SUNSET_PALETTE, sunset, distance.
  do 3 closed_step.
  square; square; do 2 closed_step; cbn match; root; repeat closed_step;
    (eexists; split; [reflexivity | reflexivity]).
Qed.
End Sunset.

(** C8.  Sunset at 512 x 512 with the palette of the table: the colour
    computed and stored at pixel (256, 204) is strictly closer to
    (255, 220, 100) than the colour at pixel (0, 0), whatever the power
    operator returns within its accuracy. *)
Theorem sunset_sun_centre_closer `{Runtime} :
  pow_accurate →
  ∃ p q,
    pixel_color "sunset" SUNSET_PALETTE 512 512 256 204 = Ok (Some p)
    ∧ pixel_color "sunset" SUNSET_PALETTE 512 512 0 0 = Ok (Some q)
    ∧ rgb_dist2 (clamp_rgb p) SUN < rgb_dist2 (clamp_rgb q) SUN
    ∧ ∀ buf, generate_artwork "sunset" SUNSET_PALETTE 512 512 = Ok buf →
        stored_at buf 512 256 204 = Some (clamp_rgb p)
        ∧ stored_at buf 512 0 0 = Some (clamp_rgb q).
Proof.
  intros Hpow.
  destruct (sunset_sun_centre Hpow) as (p & Hp & Hcloser).
  pose proof (sunset_far_corner Hpow) as Hq.
  exists p, (40, 20, 80). split; [exact Hp|]. split; [exact Hq|]. split; [exact Hcloser|].
  intros buf Hbuf.
  destruct (generate_artwork_stores _ _ _ _ buf 256 204 Hbuf) as (c & Hc & Hst); [lia..|].
  destruct (generate_artwork_stores _ _ _ _ buf 0 0 Hbuf) as (c' & Hc' & Hst'); [lia..|].
  rewrite Hp in Hc. injection Hc as <-.
  rewrite Hq in Hc'. injection Hc' as <-.
  split; assumption.
Qed.

(** ** Bytes and big-endian words *)

Lemma byte_val_range b : 0 ≤ byte_val b < 256.
Proof. unfold byte_val. pose proof (Byte.to_N_bounded b). lia. Qed.

Lemma byte_val_u8 n : byte_val (u8 n) = n mod 256.
Proof.
  unfold u8, byte_val. pose proof (Z.mod_pos_bound n 256).
  destruct (Byte.of_N (Z.to_N (n mod 256))) as [b|] eqn:E.
  - apply Byte.to_of_N in E. lia.
  - apply Byte.of_N_None_iff in E. lia.
Qed.

Lemma u8_byte_val b : u8 (byte_val b) = b.
Proof.
  unfold u8. pose proof (byte_val_range b).
  rewrite Z.mod_small by lia. unfold byte_val.
  by rewrite N2Z.id, Byte.of_to_N.
Qed.

Lemma be_value_from v cs :
  foldl (λ acc b, acc * 256 + byte_val b) v cs
  = v * 256 ^ Z.of_nat (length cs) + be_value cs.
Proof.
  unfold be_value. revert v. induction cs as [|c cs IH]; intros v; simpl foldl.
  - simpl. lia.
  - rewrite IH, (IH (0 * 256 + byte_val c)).
    replace (Z.of_nat (length (c :: cs))) with (Z.of_nat (length cs) + 1) by (simpl; lia).
    rewrite Z.pow_add_r by lia. lia.
Qed.

Lemma be_value_app bs cs :
  be_value (bs ++ cs) = be_value bs * 256 ^ Z.of_nat (length cs) + be_value cs.
Proof. unfold be_value at 1. rewrite foldl_app. apply be_value_from. Qed.

Lemma be_value_4 a b c d :
  be_value [a; b; c; d]
  = ((byte_val a * 256 + byte_val b) * 256 + byte_val c) * 256 + byte_val d.
Proof. unfold be_value. simpl. lia. Qed.

Lemma pack_I_Ok n bs :
  pack_I n = Ok bs → 0 ≤ n < 2 ^ 32 ∧ length bs = 4%nat ∧ be_value bs = n.
Proof.
  unfold pack_I.
  destruct (Z.leb_spec 0 n); [|discriminate].
  destruct (Z.ltb_spec n (2 ^ 32)); [|discriminate]. simpl.
  intros [= <-]. split; [lia|]. split; [done|].
  rewrite be_value_4, !byte_val_u8, !Z.shiftr_div_pow2 by lia.
  change (2 ^ 24) with 16777216. change (2 ^ 16) with 65536. change (2 ^ 8) with 256.
  change (2 ^ 32) with 4294967296 in *.
  Z.div_mod_to_equations. lia.
Qed.

Lemma pack_I_in_range n : 0 ≤ n < 2 ^ 32 → ∃ bs, pack_I n = Ok bs.
Proof.
  intros Hn. unfold pack_I.
  destruct (Z.leb_spec 0 n); [|lia].
  destruct (Z.ltb_spec n (2 ^ 32)); [|lia]. simpl. eauto.
Qed.

Lemma pack_I_overflow n : 2 ^ 32 ≤ n → pack_I n = Raise StructError.
Proof.
  intros Hn. unfold pack_I.
  destruct (Z.ltb_spec n (2 ^ 32)); [lia|]. by rewrite andb_false_r.
Qed.

(** ** The checksum is a 32-bit word *)

Lemma lxor_u32 a b : u32 a → u32 b → u32 (Z.lxor a b).
Proof.
  unfold u32. intros Ha Hb.
  assert (0 ≤ Z.lxor a b) by (apply Z.lxor_nonneg; lia).
  split; [done|].
  destruct (decide (Z.lxor a b = 0)) as [->|Hne]; [done|].
  apply Z.log2_lt_pow2; [lia|].
  pose proof (Z.log2_lxor a b (proj1 Ha) (proj1 Hb)).
  assert (Z.log2 a < 32).
  { destruct (decide (a = 0)) as [->|]; [done|]. apply Z.log2_lt_pow2; lia. }
  assert (Z.log2 b < 32).
  { destruct (decide (b = 0)) as [->|]; [done|]. apply Z.log2_lt_pow2; lia. }
  lia.
Qed.

Lemma shiftr_u32 c : u32 c → u32 (c ≫ 1).
Proof.
  unfold u32. intros Hc. rewrite Z.shiftr_div_pow2 by lia.
  change (2 ^ 1) with 2. change (2 ^ 32) with 4294967296 in *.
  Z.div_mod_to_equations. lia.
Qed.

Lemma crc32_bit_u32 c : u32 c → u32 (crc32_bit c).
Proof.
  intros Hc. unfold crc32_bit. destruct (Z.testbit c 0).
  - apply lxor_u32; [by apply shiftr_u32|]. unfold u32. lia.
  - by apply shiftr_u32.
Qed.

Lemma crc32_byte_u32 c b : u32 c → u32 (crc32_byte c b).
Proof.
  intros Hc. unfold crc32_byte.
  assert (u32 (Z.lxor c (byte_val b))) as Hstart.
  { apply lxor_u32; [done|]. pose proof (byte_val_range b). unfold u32. lia. }
  generalize 8%nat. intros n. induction n as [|n IH]; simpl; [done|].
  by apply crc32_bit_u32.
Qed.

Lemma zlib_crc32_u32 data : u32 (zlib_crc32 data).
Proof.
  unfold zlib_crc32. apply lxor_u32; [|unfold u32; lia].
  assert (u32 0xFFFFFFFF) as Hinit by (unfold u32; lia).
  revert Hinit. generalize 0xFFFFFFFF.
  induction data as [|b data IH]; intros c Hc; simpl; [done|].
  apply IH. by apply crc32_byte_u32.
Qed.

Lemma crc32_mask data : Z.land (zlib_crc32 data) 0xffffffff = zlib_crc32 data.
Proof.
  pose proof (zlib_crc32_u32 data) as Hc. unfold u32 in Hc.
  change 0xffffffff with (Z.ones 32). rewrite Z.land_ones by lia.
  apply Z.mod_small. lia.
Qed.

(** ** The PNG byte stream *)

Lemma chunk_Ok ctype data bs :
  length ctype = 4%nat →
  chunk ctype data = Ok bs →
  Z.of_nat (length data) < 2 ^ 32 ∧ is_chunk bs ctype data.
Proof.
  intros Htag. unfold chunk. intros Hrun.
  apply bind_Ok in Hrun as (len & Hlen & Hrun).
  apply bind_Ok in Hrun as (crc & Hcrc & [= <-]).
  apply pack_I_Ok in Hlen as (Hrange & Hl4 & Hlv).
  apply pack_I_Ok in Hcrc as (_ & Hc4 & Hcv).
  rewrite crc32_mask in Hcv.
  split; [lia|]. exists len, crc. by rewrite <-app_assoc.
Qed.

Lemma chunk_in_range ctype data :
  Z.of_nat (length data) < 2 ^ 32 → ∃ bs, chunk ctype data = Ok bs.
Proof.
  intros Hlen. unfold chunk.
  destruct (pack_I_in_range (Z.of_nat (length data))) as [len ->]; [lia|]. cbn [bind].
  destruct (pack_I_in_range (Z.land (zlib_crc32 (ctype ++ data)) 0xffffffff)) as [crc ->].
  { rewrite crc32_mask. apply zlib_crc32_u32. }
  cbn [bind]. eauto.
Qed.

Lemma header_Ok w h hdr :
  pack_IIBBBBB w h 8 2 0 0 0 = Ok hdr →
  0 ≤ w < 2 ^ 32 ∧ 0 ≤ h < 2 ^ 32 ∧ is_header hdr w h.
Proof.
  unfold pack_IIBBBBB. intros Hrun.
  apply bind_Ok in Hrun as (wb & Hw & Hrun).
  apply bind_Ok in Hrun as (hb & Hh & Hrun).
  injection Hrun as <-.
  apply pack_I_Ok in Hw as (Hwr & Hw4 & Hwv).
  apply pack_I_Ok in Hh as (Hhr & Hh4 & Hhv).
  split; [done|]. split; [done|]. by exists wb, hb.
Qed.

Lemma header_in_range w h :
  0 ≤ w < 2 ^ 32 → 0 ≤ h < 2 ^ 32 → ∃ hdr, pack_IIBBBBB w h 8 2 0 0 0 = Ok hdr.
Proof.
  intros Hw Hh. unfold pack_IIBBBBB.
  destruct (pack_I_in_range w Hw) as [wb ->].
  destruct (pack_I_in_range h Hh) as [hb ->]. simpl. eauto.
Qed.

Lemma is_header_length hdr w h : is_header hdr w h → length hdr = 13%nat.
Proof. intros (wb & hb & -> & Hw & Hh & _). rewrite !length_app. simpl. lia. Qed.

Lemma bytes_of_ints_channels l :
  Forall channel l → bytes_of_ints l = Ok (u8 <$> l).
Proof.
  induction 1 as [|v l Hv _ IH]; simpl; [done|].
  unfold channel in Hv.
  destruct (Z.leb_spec 0 v); [|lia]. destruct (Z.ltb_spec v 256); [|lia]. simpl.
  by rewrite IH.
Qed.

Lemma Forall_slice {A} (P : A → Prop) l i j : Forall P l → Forall P (slice l i j).
Proof. intros Hl. unfold slice. by apply Forall_take, Forall_drop. Qed.

Lemma append_pixel_channels pixels w y x raw :
  Forall channel pixels → ∃ raw', append_pixel pixels w y x raw = Ok raw'.
Proof.
  intros Hpx. unfold append_pixel.
  rewrite bytes_of_ints_channels by by apply Forall_slice. simpl. eauto.
Qed.

Lemma for_each_total {X S} (xs : list X) (body : X → S → result S) s :
  (∀ x s, ∃ t, body x s = Ok t) → ∃ s', for_each xs body s = Ok s'.
Proof.
  intros Hbody. revert s. induction xs as [|x xs IH]; intros s; simpl; [eauto|].
  destruct (Hbody x s) as [t ->]. simpl. apply IH.
Qed.

Lemma make_raw_channels pixels w h :
  Forall channel pixels → ∃ raw, make_raw pixels w h = Ok raw.
Proof.
  intros Hpx. apply for_each_total. intros y raw.
  apply for_each_total. intros x acc. by apply append_pixel_channels.
Qed.

Section Encoder.
Context `{Zlib}.

Lemma make_png_Ok pixels w h s :
  make_png pixels w h = Ok s →
  ∃ ihdr idat iend hdr raw,
    s = PNG_SIGNATURE ++ ihdr ++ idat ++ iend
    ∧ 0 ≤ w < 2 ^ 32 ∧ 0 ≤ h < 2 ^ 32
    ∧ is_chunk ihdr IHDR hdr ∧ is_header hdr w h
    ∧ make_raw pixels w h = Ok raw
    ∧ Z.of_nat (length (zlib_compress raw)) < 2 ^ 32
    ∧ is_chunk idat IDAT (zlib_compress raw)
    ∧ is_chunk iend IEND [].
Proof.
  unfold make_png. intros Hrun.
  apply bind_Ok in Hrun as (hdr & Hhdr & Hrun).
  apply bind_Ok in Hrun as (ihdr & Hihdr & Hrun).
  apply bind_Ok in Hrun as (raw & Hraw & Hrun).
  apply bind_Ok in Hrun as (idat & Hidat & Hrun).
  apply bind_Ok in Hrun as (iend & Hiend & [= <-]).
  apply header_Ok in Hhdr as (Hw & Hh & Hhdr).
  apply chunk_Ok in Hihdr as [_ Hihdr]; [|done].
  apply chunk_Ok in Hidat as [Hlen Hidat]; [|done].
  apply chunk_Ok in Hiend as [_ Hiend]; [|done].
  exists ihdr, idat, iend, hdr, raw. tauto.
Qed.

Lemma make_png_in_range pixels w h :
  0 ≤ w < 2 ^ 32 → 0 ≤ h < 2 ^ 32 →
  Forall channel pixels →
  (∀ raw, make_raw pixels w h = Ok raw → Z.of_nat (length (zlib_compress raw)) < 2 ^ 32) →
  ∃ s, make_png pixels w h = Ok s.
Proof.
  intros Hw Hh Hpx Hfit. unfold make_png.
  destruct (header_in_range w h Hw Hh) as [hdr Hhdr]. rewrite Hhdr. cbn [bind].
  apply header_Ok in Hhdr as (_ & _ & Hhdr%is_header_length).
  destruct (chunk_in_range IHDR hdr) as [ihdr ->]; [rewrite Hhdr; simpl; lia|].
  cbn [bind].
  destruct (make_raw_channels pixels w h Hpx) as [raw Hraw]. rewrite Hraw. cbn [bind].
  destruct (chunk_in_range IDAT (zlib_compress raw)) as [idat ->]; [by apply Hfit|].
  cbn [bind].
  destruct (chunk_in_range IEND []) as [iend ->]; [simpl; lia|].
  cbn [bind]. eauto.
Qed.

End Encoder.

(** ** The scanline buffer *)

Lemma rows_of_snoc rows stride data :
  rows_of (S rows) stride data
  = rows_of rows stride data ++ x00 :: take stride (drop (rows * stride) data).
Proof.
  revert data. induction rows as [|rows IH]; intros data.
  - simpl. by rewrite app_nil_r.
  - change (rows_of (S (S rows)) stride data)
      with (x00 :: take stride data ++ rows_of (S rows) stride (drop stride data)).
    rewrite IH, drop_drop. simpl rows_of. simpl Nat.mul.
    by rewrite app_comm_cons, app_assoc.
Qed.

Lemma slice_3 {A} (l : list A) i :
  0 ≤ i → slice l i (i + 3) = take 3 (drop (Z.to_nat i) l).
Proof.
  intros Hi. unfold slice.
  destruct (Z.ltb_spec i 0); [lia|]. destruct (Z.ltb_spec (i + 3) 0); [lia|].
  destruct (decide (i ≤ Z.of_nat (length l))) as [Hin|Hout].
  - rewrite (Z.min_l i) by lia.
    destruct (decide (i + 3 ≤ Z.of_nat (length l))).
    + rewrite Z.min_l by lia. f_equal. lia.
    + rewrite Z.min_r by lia.
      rewrite !take_ge; [done|rewrite length_drop; lia..].
  - rewrite !Z.min_r by lia. rewrite Z.sub_diag. simpl.
    rewrite (drop_ge l (Z.to_nat i)) by lia. done.
Qed.

Section RawLoop.
Variables (pixels : list Z) (w : Z).
Hypothesis Hpx : Forall channel pixels.
Hypothesis Hw : 0 ≤ w.

Lemma append_pixel_spec y x raw :
  0 ≤ y → 0 ≤ x →
  append_pixel pixels w y x raw
  = Ok (raw ++ (u8 <$> take 3 (drop (Z.to_nat ((y * w + x) * 3)) pixels))).
Proof using Hpx Hw.
  intros Hy Hx. unfold append_pixel. rewrite slice_3 by nia.
  rewrite bytes_of_ints_channels by by apply Forall_take, Forall_drop.
  done.
Qed.

Lemma append_row_spec y raw :
  0 ≤ y →
  append_row pixels w y raw
  = Ok (raw ++ x00 :: take (Z.to_nat (3 * w))
                        (drop (Z.to_nat y * Z.to_nat (3 * w)) (u8 <$> pixels))).
Proof using Hpx Hw.
  intros Hy. unfold append_row.
  pose (P := λ (x : Z) (acc : list byte),
    acc = (raw ++ [x00])
          ++ (u8 <$> take (Z.to_nat (3 * x)) (drop (Z.to_nat (3 * w * y)) pixels))).
  destruct (for_range_total P w (append_pixel pixels w y) (raw ++ [x00]))
    as (acc & -> & Hacc); [done| | |].
  - intros x acc Hx ->. eexists. split; [by apply append_pixel_spec; lia|].
    unfold P. rewrite <-!app_assoc. do 2 f_equal.
    rewrite <-fmap_app. f_equal.
    replace (Z.to_nat ((y * w + x) * 3))
      with (Z.to_nat (3 * w * y) + Z.to_nat (3 * x))%nat by nia.
    rewrite <-drop_drop, take_take_drop. f_equal. lia.
  - unfold P. simpl. by rewrite app_nil_r.
  - rewrite Hacc. rewrite <-app_assoc. simpl. do 3 f_equal.
    rewrite fmap_take, fmap_drop. do 2 f_equal. nia.
Qed.

(** The loop of [make_png] builds exactly the scanlines. *)
Lemma make_raw_scanlines h :
  0 ≤ h → make_raw pixels w h = Ok (scanlines pixels w h).
Proof using Hpx Hw.
  intros Hh. unfold make_raw.
  pose (P := λ (y : Z) (raw : list byte),
    raw = rows_of (Z.to_nat y) (Z.to_nat (3 * w)) (u8 <$> pixels)).
  destruct (for_range_total P h (append_row pixels w) []) as (raw & -> & Hraw);
    [done| |done|by rewrite Hraw].
  intros y raw Hy ->. eexists. split; [by apply append_row_spec; lia|].
  unfold P. replace (Z.to_nat (y + 1)) with (S (Z.to_nat y)) by lia.
  by rewrite rows_of_snoc.
Qed.
End RawLoop.

(** ** Reading back what the encoder wrote *)

Lemma unfilter_line_none prior i line done_rev :
  Forall (λ v, 0 ≤ v < 256) line →
  unfilter_line 0 prior i line done_rev = Some (rev done_rev ++ line).
Proof.
  intros Hline. revert i done_rev.
  induction Hline as [|v line Hv _ IH]; intros i done_rev; simpl.
  - by rewrite app_nil_r.
  - rewrite Z.add_0_r, Z.mod_small by lia. rewrite IH. simpl.
    by rewrite <-app_assoc.
Qed.

Lemma Forall_byte_val (bs : list byte) : Forall (λ v, 0 ≤ v < 256) (byte_val <$> bs).
Proof. apply Forall_fmap, Forall_true. intros b. apply byte_val_range. Qed.

Lemma unfilter_rows_none rows stride prior (data : list byte) :
  length data = (rows * stride)%nat →
  unfilter_rows rows stride prior (byte_val <$> rows_of rows stride data)
  = Some (byte_val <$> data).
Proof.
  revert prior data. induction rows as [|rows IH]; intros prior data Hlen.
  - apply length_zero_iff_nil in Hlen. by subst.
  - simpl in Hlen. cbn [rows_of unfilter_rows fmap list_fmap].
    change (byte_val x00) with 0.
    rewrite fmap_app.
    assert (length (byte_val <$> take stride data) = stride) as Hrow
      by (rewrite length_fmap, length_take; lia).
    rewrite bool_decide_eq_false_2 by (rewrite length_app; lia).
    rewrite take_app_length', drop_app_length' by done.
    rewrite unfilter_line_none by apply Forall_byte_val.
    rewrite IH by (rewrite length_drop; lia).
    simpl. by rewrite <-fmap_app, take_drop.
Qed.

Lemma byte_val_u8_channels pixels :
  Forall channel pixels → byte_val <$> (u8 <$> pixels) = pixels.
Proof.
  induction 1 as [|v l Hv _ IH]; simpl; [done|].
  rewrite byte_val_u8, Z.mod_small by (unfold channel in Hv; lia).
  by f_equal.
Qed.

Lemma read_chunk_app bs ctype data rest :
  is_chunk bs ctype data →
  Z.of_nat (length data) ≤ PNG_INT_MAX →
  read_chunk (bs ++ rest) = Some (ctype, data, rest).
Proof.
  intros (len & crc & -> & Hl4 & Ht4 & Hc4 & Hlv & Hcv) Hmax.
  unfold read_chunk. rewrite <-!app_assoc.
  rewrite (take_app_length' len) by done.
  rewrite (drop_app_length' len _ 4) by done.
  rewrite (take_app_length' ctype) by done.
  replace (drop 8 (len ++ ctype ++ data ++ crc ++ rest)) with (data ++ crc ++ rest).
  2:{ rewrite (drop_app_add' len _ 4 4) by done. by rewrite (drop_app_length' ctype). }
  rewrite Hlv, Nat2Z.id.
  rewrite take_app_length, drop_app_length, (take_app_length' crc) by done.
  rewrite bool_decide_eq_false_2 by (rewrite !length_app; lia).
  destruct (Z.ltb_spec PNG_INT_MAX (Z.of_nat (length data))); [lia|].
  destruct (Z.ltb_spec (Z.of_nat (length (data ++ crc ++ rest)))
              (Z.of_nat (length data) + 4)) as [Hshort|_].
  { rewrite !length_app in Hshort. lia. }
  rewrite Hcv, crc32_mask, Z.eqb_refl.
  rewrite (drop_app_add' data) by done.
  by rewrite (drop_app_length' crc).
Qed.

Lemma is_chunk_length bs ctype data :
  is_chunk bs ctype data → length bs = (12 + length data)%nat.
Proof. intros (len & crc & -> & ? & ? & ? & _). rewrite !length_app. lia. Qed.

Lemma read_chunks_three fuel ihdr idat iend hdr payload :
  is_chunk ihdr IHDR hdr → is_chunk idat IDAT payload → is_chunk iend IEND [] →
  Z.of_nat (length hdr) ≤ PNG_INT_MAX → Z.of_nat (length payload) ≤ PNG_INT_MAX →
  read_chunks (S (S (S fuel))) (ihdr ++ idat ++ iend)
  = Some [(IHDR, hdr); (IDAT, payload); (IEND, [])].
Proof.
  intros Hihdr Hidat Hiend Hh Hp.
  cbn [read_chunks]. rewrite (read_chunk_app _ _ _ _ Hihdr Hh).
  rewrite (bool_decide_eq_false_2 (IHDR = IEND)) by discriminate.
  rewrite (read_chunk_app _ _ _ _ Hidat Hp).
  rewrite (bool_decide_eq_false_2 (IDAT = IEND)) by discriminate.
  rewrite <-(app_nil_r iend).
  rewrite (read_chunk_app _ _ _ _ Hiend) by (unfold PNG_INT_MAX; simpl; lia).
  rewrite (bool_decide_eq_true_2 (IEND = IEND)) by done.
  by rewrite bool_decide_eq_true_2.
Qed.

Section RoundTrip.
Context `{Zlib}.

Lemma png_decode_stream ihdr idat iend hdr payload raw w h px :
  is_chunk ihdr IHDR hdr → is_header hdr w h →
  is_chunk idat IDAT payload → is_chunk iend IEND [] →
  1 ≤ w ≤ PNG_INT_MAX → 1 ≤ h ≤ PNG_INT_MAX →
  Z.of_nat (length payload) ≤ PNG_INT_MAX →
  zlib_decompress payload = Some raw →
  unfilter_rows (Z.to_nat h) (Z.to_nat (3 * w)) (replicate (Z.to_nat (3 * w)) 0)
    (byte_val <$> raw) = Some px →
  png_decode (PNG_SIGNATURE ++ ihdr ++ idat ++ iend)
  = Some {| img_width := w; img_height := h; img_bit_depth := 8;
            img_color_type := 2; img_pixels := px |}.
Proof.
  intros Hihdr Hhdr Hidat Hiend Hw Hh Hfit Hinflate Hrows.
  unfold png_decode.
  rewrite (take_app_length' PNG_SIGNATURE) by done.
  rewrite bool_decide_eq_true_2 by done.
  rewrite (drop_app_length' PNG_SIGNATURE) by done.
  pose proof (is_chunk_length _ _ _ Hihdr) as Li.
  pose proof (is_header_length _ _ _ Hhdr) as L13.
  assert (∃ k, length (PNG_SIGNATURE ++ ihdr ++ idat ++ iend) = S (S (S k))) as [k ->].
  { exists (length (PNG_SIGNATURE ++ ihdr ++ idat ++ iend) - 3)%nat.
    rewrite !length_app. lia. }
  rewrite (read_chunks_three k ihdr idat iend hdr payload)
    by (done || (rewrite L13; unfold PNG_INT_MAX; simpl; lia)).
  destruct Hhdr as (wb & hb & -> & Hw4 & Hh4 & Hwv & Hhv).
  rewrite (take_app_length' wb) by done.
  rewrite (drop_app_length' wb _ 4) by done.
  rewrite (take_app_length' hb) by done.
  rewrite (drop_app_add' wb _ 4 4) by done.
  rewrite (drop_app_length' hb) by done.
  rewrite Hwv, Hhv.
  rewrite bool_decide_eq_true_2 by (repeat split; (done || lia)).
  cbn [idat_stream].
  rewrite (bool_decide_eq_false_2 (IEND = IDAT)) by discriminate.
  rewrite (bool_decide_eq_true_2 (IEND = IEND)) by done.
  rewrite (bool_decide_eq_true_2 (IDAT = IDAT)) by done.
  rewrite app_nil_r, Hinflate, Hrows. done.
Qed.

(** C1 (amended).  Within the limits of the format - dimensions and
    compressed length at most 2^31 - 1 - the encoder returns a stream that
    decodes to the requested width and height, bit depth 8, colour type 2
    and the input pixels; the data it compresses is, row by row, a filter
    byte 0 followed by the 3 * w pixel bytes of the row. *)
Theorem make_png_round_trip pixels w h :
  1 ≤ w ≤ PNG_INT_MAX → 1 ≤ h ≤ PNG_INT_MAX →
  Z.of_nat (length pixels) = w * h * 3 →
  Forall channel pixels →
  Z.of_nat (length (zlib_compress (scanlines pixels w h))) ≤ PNG_INT_MAX →
  zlib_decompress (zlib_compress (scanlines pixels w h)) = Some (scanlines pixels w h) →
  ∃ s,
    make_png pixels w h = Ok s
    ∧ png_decode s = Some {| img_width := w; img_height := h; img_bit_depth := 8;
                             img_color_type := 2; img_pixels := pixels |}
    ∧ make_raw pixels w h = Ok (scanlines pixels w h).
Proof.
  intros Hw Hh Hlen Hpx Hfit Hinflate.
  assert (make_raw pixels w h = Ok (scanlines pixels w h)) as Hraw
    by (apply make_raw_scanlines; (done || lia)).
  unfold PNG_INT_MAX in Hw, Hh, Hfit.
  destruct (make_png_in_range pixels w h) as [s Hs]; [lia|lia|done| |].
  { intros raw Hraw'. rewrite Hraw in Hraw'. injection Hraw' as <-. lia. }
  exists s. split; [done|]. split; [|done].
  apply make_png_Ok in Hs
    as (ihdr & idat & iend & hdr & raw & -> & _ & _ & Hihdr & Hhdr & Hraw' & _ & Hidat & Hiend).
  rewrite Hraw in Hraw'. injection Hraw' as <-.
  apply (png_decode_stream ihdr idat iend hdr
           (zlib_compress (scanlines pixels w h)) (scanlines pixels w h));
    try assumption; try (unfold PNG_INT_MAX; lia).
  unfold scanlines. rewrite unfilter_rows_none.
  - by rewrite byte_val_u8_channels.
  - rewrite length_fmap. nia.
Qed.

Lemma make_png_too_wide pixels w h :
  2 ^ 32 ≤ w → make_png pixels w h = Raise StructError.
Proof.
  intros Hw. unfold make_png, pack_IIBBBBB. by rewrite pack_I_overflow.
Qed.
End RoundTrip.

(** ** The script *)

Section Script.
Context `{Host}.
Variable gen : string → palette → Z → Z → result (list Z).
Variable enc : list Z → Z → Z → result (list byte).

Lemma save_one_Ok a w w' :
  save_one gen enc a w = (Ok (), w') →
  ∃ png,
    render gen enc a = Ok png
    ∧ w_files w' = <[png_path (uuid_of a) := png]> (w_files w)
    ∧ w_log w' = w_log w ++ save_events a png.
Proof.
  destruct a as [[uuid style] colors].
  unfold save_one, render, style_of, uuid_of, print, lift, write_file, emit,
    mbind, io_bind. simpl.
  destruct (gen style colors SIZE SIZE) as [pixels|e]; [|discriminate]. simpl.
  destruct (enc pixels SIZE SIZE) as [png|e]; [|discriminate].
  destruct (open_wb _ _); [|discriminate]. simpl.
  intros [= <-]. exists png. simpl. by rewrite <-!app_assoc.
Qed.

Lemma upload_one_Ok a w w' :
  upload_one a w = (Ok (), w') →
  ∃ out,
    run_child (curl_argv (uuid_of a)) (w_files w) = Some (Text out)
    ∧ w_files w' = w_files w
    ∧ w_log w' = w_log w ++ upload_events (w_files w) a out.
Proof.
  destruct a as [[uuid style] colors].
  unfold upload_one, uuid_of, style_of, subprocess_run, print, emit, mbind, io_bind.
  simpl. destruct (run_child _ _) as [[out|]|]; [|discriminate..]. simpl.
  intros [= <-]. exists out. simpl. by rewrite <-!app_assoc.
Qed.

Lemma for_io_cons {X} (x : X) xs body w :
  for_io (x :: xs) body w
  = match body x w with
    | (Ok _, w') => for_io xs body w'
    | (Raise e, w') => (Raise e, w')
    end.
Proof. done. Qed.

(** The first pass: every record rendered and written, in list order. *)
Lemma save_pass xs w w' :
  for_io xs (save_one gen enc) w = (Ok (), w') →
  ∃ pngs,
    Forall2 (λ a png, render gen enc a = Ok png) xs pngs
    ∧ w_files w'
      = foldl (λ fs ap, <[png_path (uuid_of ap.1) := ap.2]> fs) (w_files w) (zip xs pngs)
    ∧ w_log w' = w_log w ++ concat (zip_with save_events xs pngs).
Proof.
  revert w. induction xs as [|a xs IH]; intros w.
  - intros [= <-]. exists []. simpl. by rewrite app_nil_r.
  - rewrite for_io_cons.
    destruct (save_one gen enc a w) as [[[]|e] w1] eqn:Ha; [|discriminate].
    intros Hrest. apply save_one_Ok in Ha as (png & Hpng & Hfs & Hlog).
    apply IH in Hrest as (pngs & Hall & Hfs' & Hlog').
    exists (png :: pngs). split; [by constructor|]. simpl.
    rewrite Hfs', Hfs, Hlog', Hlog. by rewrite <-app_assoc.
Qed.

(** The second pass: one child process per record, in list order, on an
    unchanged disk. *)
Lemma upload_pass xs w w' :
  for_io xs upload_one w = (Ok (), w') →
  ∃ outs,
    length outs = length xs
    ∧ w_files w' = w_files w
    ∧ w_log w' = w_log w ++ concat (zip_with (upload_events (w_files w)) xs outs).
Proof.
  revert w. induction xs as [|a xs IH]; intros w.
  - intros [= <-]. exists []. simpl. by rewrite app_nil_r.
  - rewrite for_io_cons.
    destruct (upload_one a w) as [[[]|e] w1] eqn:Ha; [|discriminate].
    intros Hrest. apply upload_one_Ok in Ha as (out & _ & Hfs & Hlog).
    apply IH in Hrest as (outs & Hlen & Hfs' & Hlog').
    exists (out :: outs). split; [simpl; lia|]. simpl.
    rewrite Hfs', Hlog', Hfs, Hlog. by rewrite <-app_assoc.
Qed.

(** C6 (amended).  A run that completes made two passes over the table,
    each in list order: first every record is generated, encoded and
    written to local storage; only then is every record sent and its
    status reported. *)
Theorem main_two_passes w0 w1 :
  main_with gen enc w0 = (Ok (), w1) →
  ∃ pngs outs,
    Forall2 (λ a png, render gen enc a = Ok png) ARTWORKS pngs
    ∧ length outs = length ARTWORKS
    ∧ w_log w1
      = w_log w0
        ++ concat (zip_with save_events ARTWORKS pngs)
        ++ [EPrint (nl +:+ "Uploading to MinIO...")]
        ++ concat (zip_with (upload_events (w_files w1)) ARTWORKS outs)
        ++ [EPrint (nl +:+ "Done!")].
Proof.
  unfold main_with, mbind, io_bind.
  destruct (for_io ARTWORKS (save_one gen enc) w0) as [[[]|e] wa] eqn:Hsave; [|discriminate].
  unfold print at 1. 
  destruct (for_io ARTWORKS upload_one _) as [[[]|e] wb] eqn:Hup; [|discriminate].
  unfold print. intros [= <-].
  apply save_pass in Hsave as (pngs & Hall & _ & Hlog).
  apply upload_pass in Hup as (outs & Hlen & Hfs & Hlog').
  exists pngs, outs. split; [done|]. split; [done|].
  unfold emit in *. cbn [w_log w_files] in *.
  rewrite Hfs, Hlog', Hlog. by rewrite <-!app_assoc.
Qed.
End Script.

Section ScriptOrder.
Context `{Host}.
Variable gen : string → palette → Z → Z → result (list Z).
Variable enc : list Z → Z → Z → result (list byte).

(** Every completed run writes the second record before it uploads the
    first. *)
Lemma main_writes_before_uploads w0 w1 :
  main_with gen enc w0 = (Ok (), w1) → ¬ one_at_a_time (w_log w1).
Proof.
  intros Hrun Hclaim.
  apply main_two_passes in Hrun as (pngs & outs & Hall & Hlen & Hlog).
  unfold ARTWORKS in Hall, Hlen, Hlog.
  repeat match goal with
  | Hall : Forall2 _ (_ :: _) _ |- _ =>
      apply Forall2_cons_inv_l in Hall as (? & ? & _ & Hall & ->)
  | Hall : Forall2 _ [] _ |- _ => apply Forall2_nil_inv_l in Hall as ->
  end.
  do 10 (destruct outs as [|? outs]; [discriminate Hlen|]).
  cbn [concat zip_with app save_events upload_events] in Hlog.
  match type of Hlog with
  | _ = _ ++ ?e0 :: ?e1 :: ?e2 :: ?e3 :: EWrite ?path ?png :: _ =>
      specialize (Hclaim 0%nat 1%nat (length (w_log w0) + 4)%nat
                    (length (w_log w0) + 31)%nat _ _ png (w_files w1)
                    ltac:(lia) eq_refl eq_refl)
  end.
  rewrite Hlog in Hclaim.
  rewrite !lookup_app_r in Hclaim by lia.
  rewrite !Nat.add_sub' in Hclaim.
  specialize (Hclaim eq_refl eq_refl). lia.
Qed.
End ScriptOrder.

(** ** What is uploaded *)

Lemma os_path_join_inj dir b1 b2 :
  String.prefix "/" b1 = false → String.prefix "/" b2 = false →
  os_path_join dir b1 = os_path_join dir b2 → b1 = b2.
Proof.
  intros H1 H2. unfold os_path_join. rewrite H1, H2.
  destruct (_ || _); intros E.
  - by apply (inj (String.app dir)) in E.
  - apply (inj (String.app dir)) in E. by apply (inj (String.app "/")) in E.
Qed.

Lemma file_names_relative : Forall (λ b, String.prefix "/" b = false) file_names.
Proof. unfold file_names, ARTWORKS, uuid_of. cbn. repeat constructor. Qed.

Lemma file_names_NoDup : NoDup file_names.
Proof. apply (bool_decide_unpack _). vm_compute. exact I. Qed.

Lemma foldl_insert_other {A V} (key : A → string) (kvs : list (A * V)) (m : gmap string V) k :
  k ∉ (key ∘ fst) <$> kvs →
  foldl (λ fs ap, <[key ap.1 := ap.2]> fs) m kvs !! k = m !! k.
Proof.
  revert m. induction kvs as [|[a v] kvs IH]; intros m Hk; simpl; [done|].
  simpl in Hk. apply not_elem_of_cons in Hk as [Hne Hk].
  rewrite IH by done. by rewrite lookup_insert_ne.
Qed.

Lemma foldl_insert_lookup {A V} (key : A → string) (xs : list A) (vs : list V)
    (m : gmap string V) :
  NoDup (key <$> xs) → length vs = length xs →
  Forall2 (λ a v, foldl (λ fs ap, <[key ap.1 := ap.2]> fs) m (zip xs vs) !! key a = Some v)
    xs vs.
Proof.
  revert vs m. induction xs as [|a xs IH]; intros [|v vs] m Hnd Hlen;
    try discriminate; [constructor|].
  simpl in Hnd. apply NoDup_cons in Hnd as [Hfresh Hnd]. simpl.
  constructor.
  - rewrite foldl_insert_other; [by rewrite lookup_insert_eq|].
    rewrite list_fmap_compose, fst_zip by (simpl in Hlen; lia). done.
  - apply IH; [done|]. simpl in Hlen. lia.
Qed.

Lemma child_runs_app l1 l2 : child_runs (l1 ++ l2) = child_runs l1 ++ child_runs l2.
Proof. apply omap_app. Qed.

Section Uploads.
Context `{Host}.
Variable gen : string → palette → Z → Z → result (list Z).
Variable enc : list Z → Z → Z → result (list byte).

Lemma png_paths_NoDup : NoDup ((λ a, png_path (uuid_of a)) <$> ARTWORKS).
Proof.
  change ((λ a, png_path (uuid_of a)) <$> ARTWORKS)
    with (os_path_join script_dir <$> file_names).
  apply NoDup_fmap_2_strong; [|apply file_names_NoDup].
  intros b1 b2 Hb1 Hb2.
  pose proof file_names_relative as Hrel. rewrite Forall_forall in Hrel.
  apply os_path_join_inj; by apply Hrel.
Qed.

Lemma child_runs_save xs pngs :
  child_runs (concat (zip_with save_events xs pngs)) = [].
Proof.
  revert pngs. induction xs as [|a xs IH]; intros [|png pngs]; try done.
  simpl. apply IH.
Qed.

Lemma child_runs_upload disk xs outs :
  length outs = length xs →
  child_runs (concat (zip_with (upload_events disk) xs outs))
  = (λ a, (curl_argv (uuid_of a), disk)) <$> xs.
Proof.
  revert outs. induction xs as [|a xs IH]; intros [|out outs] Hlen; try done.
  simpl. f_equal. apply IH. simpl in Hlen. lia.
Qed.

Lemma curl_argv_put_command uuid : curl_argv uuid = put_command uuid.
Proof. reflexivity. Qed.

(** C7.  In a run that completes, the child processes started are
    exactly one per record, in list order: a PUT to the base address
    followed by the object key [artworks/<identifier>.png], with the
    header [Content-Type: image/png] and, as body, the saved file, which
    holds at that moment the PNG bytes of the record. *)
Theorem main_uploads_each_png w0 w1 :
  main_with gen enc w0 = (Ok (), w1) →
  ∃ pngs disk,
    Forall2 (λ a png, render gen enc a = Ok png) ARTWORKS pngs
    ∧ child_runs (drop (length (w_log w0)) (w_log w1))
      = (λ a, (put_command (uuid_of a), disk)) <$> ARTWORKS
    ∧ Forall2 (λ a png, disk !! png_path (uuid_of a) = Some png) ARTWORKS pngs
    ∧ object_key "b0000001-0000-0000-0000-000000000001"
      = "artworks/b0000001-0000-0000-0000-000000000001.png".
Proof.
  intros Hrun.
  pose proof (main_two_passes gen enc w0 w1 Hrun) as (pngs & outs & Hall & Hlen & Hlog).
  unfold main_with, mbind, io_bind in Hrun.
  destruct (for_io ARTWORKS (save_one gen enc) w0) as [[[]|e] wa] eqn:Hsave; [|discriminate].
  unfold print at 1 in Hrun.
  destruct (for_io ARTWORKS upload_one _) as [[[]|e] wb] eqn:Hup; [|discriminate].
  unfold print in Hrun. injection Hrun as <-.
  apply save_pass in Hsave as (pngs' & Hall' & Hfs & _).
  apply upload_pass in Hup as (_ & _ & Hfs' & _).
  assert (pngs' = pngs) as ->.
  { clear -Hall Hall'. revert pngs' Hall'.
    induction Hall as [|a png xs pngs Ha _ IH]; intros pngs' Hall'.
    - by apply Forall2_nil_inv_l in Hall'.
    - apply Forall2_cons_inv_l in Hall' as (png' & pngs'' & Ha' & Hrest & ->).
      rewrite Ha in Ha'. injection Ha' as <-. f_equal. by apply IH. }
  exists pngs, (w_files wb). split; [done|].
  unfold emit in *. cbn [w_log w_files] in *.
  split; [|split; [|done]].
  - rewrite Hlog, drop_app_length. rewrite !child_runs_app.
    rewrite child_runs_save, child_runs_upload by done.
    unfold child_runs. cbn [omap list_omap app]. by rewrite app_nil_r.
  - rewrite Hfs', Hfs.
    apply (foldl_insert_lookup (λ a, png_path (uuid_of a)));
      [apply png_paths_NoDup|].
    symmetry. by eapply Forall2_length.
Qed.
End Uploads.

(** ** More on the pattern generator *)

Section GeneratorLayout.
Context `{Runtime}.

(** X1.  The buffer is row-major with three entries per pixel: pixel
    (x, y) occupies the entries 3 (y w + x), + 1 and + 2, which hold the
    clamped red, green and blue of the colour the style computes there. *)
Theorem generate_artwork_row_major style colors w h buf x y :
  generate_artwork style colors w h = Ok buf →
  0 ≤ x < w → 0 ≤ y < h →
  ∃ r g b,
    pixel_color style colors w h x y = Ok (Some (r, g, b))
    ∧ buf !! Z.to_nat ((y * w + x) * 3) = Some (clamp r)
    ∧ buf !! Z.to_nat ((y * w + x) * 3 + 1) = Some (clamp g)
    ∧ buf !! Z.to_nat ((y * w + x) * 3 + 2) = Some (clamp b).
Proof.
  intros Hrun Hx Hy.
  destruct (generate_artwork_stores style colors w h buf x y Hrun Hx Hy)
    as ([[r g] b] & Hc & Hst).
  exists r, g, b. split; [exact Hc|].
  unfold stored_at, pixel_index in Hst.
  assert (0 ≤ (y * w + x) * 3) by nia.
  replace (Z.to_nat ((y * w + x) * 3 + 1)) with (S (Z.to_nat ((y * w + x) * 3))) by lia.
  replace (Z.to_nat ((y * w + x) * 3 + 2)) with (S (S (Z.to_nat ((y * w + x) * 3)))) by lia.
  destruct (buf !! Z.to_nat ((y * w + x) * 3)) as [r'|]; [|discriminate].
  destruct (buf !! S (Z.to_nat ((y * w + x) * 3))) as [g'|]; [|discriminate].
  destruct (buf !! S (S (Z.to_nat ((y * w + x) * 3)))) as [b'|]; [|discriminate].
  simpl in Hst. by injection Hst as -> -> ->.
Qed.

(** X2.  The call returns a buffer exactly when the style yields a colour
    at every pixel: the stores never go out of range, so nothing else can
    make it fail. *)
Theorem generate_artwork_returns_iff style colors w h :
  0 ≤ w → 0 ≤ h →
  (∃ buf, generate_artwork style colors w h = Ok buf)
  ↔ (∀ x y, 0 ≤ x < w → 0 ≤ y < h →
       ∃ c, pixel_color style colors w h x y = Ok (Some c)).
Proof.
  intros Hw Hh. split.
  - intros [buf Hrun] x y Hx Hy.
    destruct (generate_artwork_stores style colors w h buf x y Hrun Hx Hy) as (c & Hc & _).
    by exists c.
  - by apply generate_artwork_total.
Qed.

Lemma for_each_skip {X S} (xs : list X) (body : X → S → result S) :
  (∀ x s, body x s = Ok s) → ∀ s, for_each xs body s = Ok s.
Proof.
  intros Hbody. induction xs as [|x xs IH]; intros s; simpl; [done|].
  rewrite Hbody. simpl. apply IH.
Qed.

(** X3.  With no row or no column to paint the loops do nothing: the call
    returns the initial buffer of [w * h * 3] zeros, for any style, known
    or not.  The buffer is empty unless both dimensions are negative. *)
Theorem generate_artwork_degenerate style colors w h :
  w ≤ 0 ∨ h ≤ 0 →
  generate_artwork style colors w h = Ok (replicate (Z.to_nat (w * h * 3)) 0).
Proof.
  intros Hwh. unfold generate_artwork.
  destruct (decide (h ≤ 0)) as [Hh|Hh].
  - unfold range at 1. by rewrite seqZ_nil.
  - apply for_each_skip. intros y px. unfold range. rewrite seqZ_nil by lia. done.
Qed.

(** X4.  The colour variables stay unbound exactly for the styles outside
    the table: each of the ten branches binds them or raises. *)
Theorem style_rule_unbound_iff style colors w h x y fx fy :
  style_rule style colors w h x y fx fy = Ok None ↔ ¬ In style STYLES.
Proof.
  split; [|apply style_rule_unknown].
  intros Hnone Hin. unfold style_rule in Hnone. destruct colors as [[c1 c2] c3].
  simpl in Hin.
  repeat (destruct Hin as [<-|Hin];
          [cbn [String.eqb Ascii.eqb Bool.eqb] in Hnone;
           apply bind_Ok in Hnone as (c & _ & Hc); discriminate Hc|]).
  exact Hin.
Qed.
End GeneratorLayout.

(** ** The integer styles *)

Section IntegerStyles.
Context `{Runtime}.

Lemma retro_cell_symmetry c1 c2 x y x' y' :
  x' / 16 = x / 16 ∨ x' / 16 = 32 - x / 16 →
  y' / 16 = y / 16 ∨ y' / 16 = 32 - y / 16 →
  retro c1 c2 x' y' = retro c1 c2 x y.
Proof.
  intros Hx Hy. unfold retro.
  change (SIZE / 16 / 2) with 16.
  assert (Z.abs (x' / 16 - 16) = Z.abs (x / 16 - 16)) as -> by lia.
  assert (Z.abs (y' / 16 - 16) = Z.abs (y / 16 - 16)) as -> by lia.
  assert ((x' / 16 + y' / 16) mod 2 = (x / 16 + y / 16) mod 2) as ->; [|done].
  destruct Hx as [-> | ->], Hy as [-> | ->]; [done|..].
  - replace (x / 16 + (32 - y / 16)) with (x / 16 + y / 16 + (16 - y / 16) * 2) by lia.
    apply Z.mod_add. lia.
  - replace (32 - x / 16 + y / 16) with (x / 16 + y / 16 + (16 - x / 16) * 2) by lia.
    apply Z.mod_add. lia.
  - replace (32 - x / 16 + (32 - y / 16))
      with (x / 16 + y / 16 + (32 - x / 16 - y / 16) * 2) by lia.
    apply Z.mod_add. lia.
Qed.

(** X5.  At 512 x 512 the retro artwork is generated for every palette
    and on every platform, and the image depends only on the coarse
    16 x 16 cell: two pixels of the same cell, or of cells mirrored
    through column 16 or through row 16, hold the same colour. *)
Theorem retro_image_symmetric colors x y x' y' :
  0 ≤ x < 512 → 0 ≤ y < 512 → 0 ≤ x' < 512 → 0 ≤ y' < 512 →
  x' / 16 = x / 16 ∨ x' / 16 = 32 - x / 16 →
  y' / 16 = y / 16 ∨ y' / 16 = 32 - y / 16 →
  ∃ buf,
    generate_artwork "retro" colors SIZE SIZE = Ok buf
    ∧ stored_at buf SIZE x' y' = stored_at buf SIZE x y.
Proof.
  intros Hx Hy Hx' Hy' Hcx Hcy. change SIZE with 512.
  destruct (generate_artwork_total "retro" colors 512 512) as [buf Hbuf]; [lia..| |].
  { intros i j Hi Hj. destruct (retro_pixel_color colors i j) as (c & Hc & _); eauto. }
  exists buf. split; [exact Hbuf|].
  destruct (generate_artwork_stores _ _ _ _ buf x y Hbuf) as (c & Hc & ->); [lia..|].
  destruct (generate_artwork_stores _ _ _ _ buf x' y' Hbuf) as (c' & Hc' & ->); [lia..|].
  destruct (retro_pixel_color colors x y) as (d & Hd & Hretro); [lia..|].
  destruct (retro_pixel_color colors x' y') as (d' & Hd' & Hretro'); [lia..|].
  rewrite (retro_cell_symmetry _ _ x y) in Hretro' by assumption.
  congruence.
Qed.
End IntegerStyles.

Lemma lerp_channel_window a b t :
  a = 30 ∨ a = 50 → channel b → t = 0.75%float ∨ t = 1%float →
  ∃ v, lerp_channel a b t = Ok v ∧ channel v.
Proof.
  intros Ha Hb Ht.
  assert (forallb (λ b,
            forallb (λ a,
              forallb (λ t,
                match lerp_channel a b t with
                | Ok v => (0 <=? v) && (v <=? 255)
                | Raise _ => false
                end) [0.75%float; 1%float]) [30; 50]) (range 256) = true) as Hall
    by (vm_compute; reflexivity).
  rewrite forallb_forall in Hall. specialize (Hall b).
  rewrite forallb_forall in Hall.
  assert (In b (range 256)) as Hin.
  { apply list_elem_of_In, list_elem_of_lookup. exists (Z.to_nat b).
    unfold range. apply lookup_seqZ. unfold channel in Hb. lia. }
  specialize (Hall Hin a). rewrite forallb_forall in Hall.
  assert (In a [30; 50]) as Hina by (simpl; destruct Ha; auto).
  specialize (Hall Hina t).
  assert (In t [0.75%float; 1%float]) as Hint by (simpl; destruct Ht; auto).
  specialize (Hall Hint).
  destruct (lerp_channel a b t) as [v|]; [|discriminate].
  exists v. split; [done|]. unfold channel. lia.
Qed.

Section Moscow.
Context `{Runtime}.

Lemma lerp_color_window c2 t :
  rgb_channels c2 → t = 0.75%float ∨ t = 1%float →
  ∃ c, lerp_color (30, 30, 50) c2 t = Ok c ∧ rgb_channels c.
Proof.
  destruct c2 as [[r2 g2] b2]. intros (Hr & Hg & Hb) Ht. simpl in Hr, Hg, Hb.
  unfold lerp_color.
  destruct (lerp_channel_window 30 r2 t (or_introl eq_refl) Hr Ht) as (r & -> & Hr').
  destruct (lerp_channel_window 30 g2 t (or_introl eq_refl) Hg Ht) as (g & -> & Hg').
  destruct (lerp_channel_window 50 b2 t (or_intror eq_refl) Hb Ht) as (b & -> & Hb').
  cbn [bind]. exists (r, g, b). split; [done|]. unfold rgb_channels. simpl. auto.
Qed.

(** The night cityscape returns a colour at every pixel, whatever the hash
    returns, negative values included; with an RGB palette the colour is
    already within the channel range. *)
Lemma moscow_returns c1 c2 h x y :
  rgb_channels c2 →
  ∃ c, moscow c1 c2 h x y = Ok c ∧ (rgb_channels c1 → rgb_channels c).
Proof.
  intros Hc2. unfold moscow.
  assert (rgb_channels (30, 30, 50)) as H30 by (unfold rgb_channels, channel; simpl; lia).
  assert (rgb_channels (220, 220, 255)) as H220
    by (unfold rgb_channels, channel; simpl; lia).
  assert (∃ c, (if (h - (100 + hash_int (x / 40 * 40) mod 250) <? y)
                   && (2 <? x mod 40) && (x mod 40 <? 38)
                then
                  if (2 <? x mod 40 mod 8) && (x mod 40 mod 8 <? 6)
                     && (2 <? y mod 12) && (y mod 12 <? 8)
                  then
                    if 0 <? hash_pair (x / 40 * 40) (y / 12) mod 3
                    then let* fb := float_of_int (hash_pair (x / 40 * 40) (y / 12) mod 3) in
                         lerp_color (30, 30, 50) c2 (0.5 + fb * 0.25)%float
                    else Ok (30, 30, 50)
                  else Ok (30, 30, 50)
                else Ok c1) = Ok c ∧ (rgb_channels c1 → rgb_channels c))
    as (c & Hc & Hrange).
  { destruct (_ && _ && _); [|by eauto].
    destruct (_ && _ && _ && _); [|by eauto].
    pose proof (Z.mod_pos_bound (hash_pair (x / 40 * 40) (y / 12)) 3 ltac:(lia)) as Hb.
    destruct (Z.ltb_spec 0 (hash_pair (x / 40 * 40) (y / 12) mod 3)) as [Hpos|_];
      [|by eauto].
    assert (hash_pair (x / 40 * 40) (y / 12) mod 3 = 1
            ∨ hash_pair (x / 40 * 40) (y / 12) mod 3 = 2) as [-> | ->] by lia.
    - change (float_of_int 1) with (Ok 1%float). cbn [bind].
      destruct (lerp_color_window c2 (0.5 + 1 * 0.25)%float) as (c & Hc & Hr);
        [done|by left|]. eauto.
    - change (float_of_int 2) with (Ok 2%float). cbn [bind].
      destruct (lerp_color_window c2 (0.5 + 2 * 0.25)%float) as (c & Hc & Hr);
        [done|by right|]. eauto. }
  cbv zeta. rewrite Hc. cbn [bind].
  destruct (y <? h - 100); [|by eauto].
  destruct (_ =? 0); eauto.
Qed.

(** X7.  At 512 x 512 the night cityscape is generated whatever values
    the platform's hash returns - negative ones included - as long as the
    window colour of the palette is an RGB colour. *)
Theorem generate_artwork_moscow_returns colors :
  rgb_channels colors.1.2 →
  ∃ buf, generate_artwork "moscow" colors SIZE SIZE = Ok buf.
Proof.
  intros Hc2. change SIZE with 512.
  apply generate_artwork_total; [lia..|].
  intros x y Hx Hy. unfold pixel_color.
  destruct (int_truediv_512 x Hx) as [fx ->].
  destruct (int_truediv_512 y Hy) as [fy ->].
  destruct colors as [[c1 c2] c3]. cbn [bind]. unfold style_rule.
  cbn [String.eqb Ascii.eqb Bool.eqb].
  destruct (moscow_returns c1 c2 512 x y Hc2) as (c & -> & _). eauto.
Qed.
End Moscow.

(** ** Interpolation *)

Lemma lerp_channel_endpoints a b :
  channel a → channel b →
  lerp_channel a b 0 = Ok a ∧ lerp_channel a b 1 = Ok b.
Proof.
  intros Ha Hb.
  assert (forallb (λ a,
            forallb (λ b,
              match lerp_channel a b 0, lerp_channel a b 1 with
              | Ok u, Ok v => (u =? a) && (v =? b)
              | _, _ => false
              end) (range 256)) (range 256) = true) as Hall
    by (vm_compute; reflexivity).
  assert (∀ v, channel v → In v (range 256)) as Hin.
  { intros v Hv. apply list_elem_of_In, list_elem_of_lookup. exists (Z.to_nat v).
    unfold range. apply lookup_seqZ. unfold channel in Hv. lia. }
  rewrite forallb_forall in Hall. specialize (Hall a (Hin a Ha)).
  rewrite forallb_forall in Hall. specialize (Hall b (Hin b Hb)).
  destruct (lerp_channel a b 0) as [u|]; [|discriminate].
  destruct (lerp_channel a b 1) as [v|]; [|discriminate].
  apply andb_prop in Hall as [Hu Hv].
  apply Z.eqb_eq in Hu, Hv. by subst.
Qed.

(** X8.  Between two RGB colours the interpolation starts at the first and
    ends at the second: at [t = 0.0] it returns [c1] and at [t = 1.0] it
    returns [c2], exactly. *)
Theorem lerp_color_endpoints c1 c2 :
  rgb_channels c1 → rgb_channels c2 →
  lerp_color c1 c2 0 = Ok c1 ∧ lerp_color c1 c2 1 = Ok c2.
Proof.
  destruct c1 as [[r1 g1] b1], c2 as [[r2 g2] b2].
  intros (Hr1 & Hg1 & Hb1) (Hr2 & Hg2 & Hb2). simpl in *.
  destruct (lerp_channel_endpoints r1 r2 Hr1 Hr2) as [Er0 Er1].
  destruct (lerp_channel_endpoints g1 g2 Hg1 Hg2) as [Eg0 Eg1].
  destruct (lerp_channel_endpoints b1 b2 Hb1 Hb2) as [Eb0 Eb1].
  unfold lerp_color. rewrite Er0, Eg0, Eb0, Er1, Eg1, Eb1. done.
Qed.

Lemma float_ltb_leb x y : (x <? y)%float = true → (x <=? y)%float = true.
Proof.
  rewrite ltb_spec, leb_spec. unfold SFltb, SFleb.
  by destruct (SFcompare (Prim2SF x) (Prim2SF y)) as [[]|].
Qed.

(** X6.  The blend weight [max(0, min(1, v))] of the nebula lies in [0, 1]
    for every float [v]; a NaN becomes 1. *)
Theorem unit_clip_range v :
  (0 <=? unit_clip v)%float = true
  ∧ (unit_clip v <=? 1)%float = true
  ∧ unit_clip PrimFloat.nan = 1%float.
Proof.
  split; [|split; [|reflexivity]]; unfold unit_clip.
  - destruct (v <? 1)%float; [|reflexivity].
    destruct (0 <? v)%float eqn:Hv; [by apply float_ltb_leb|reflexivity].
  - destruct (v <? 1)%float eqn:H1; [|reflexivity].
    destruct (0 <? v)%float; [by apply float_ltb_leb|reflexivity].
Qed.

(** ** More on the PNG encoder *)

Section EncoderEdges.
Context `{Zlib}.

(** X9.  The stream is the compressed scanlines plus 57 bytes of framing:
    the signature, the header chunk and the three chunk envelopes. *)
Theorem make_png_length pixels w h s :
  make_png pixels w h = Ok s →
  ∃ raw, make_raw pixels w h = Ok raw
         ∧ length s = (57 + length (zlib_compress raw))%nat.
Proof.
  intros Hs.
  apply make_png_Ok in Hs
    as (ihdr & idat & iend & hdr & raw & -> & _ & _ & Hihdr & Hhdr & Hraw & _ & Hidat & Hiend).
  exists raw. split; [done|].
  apply is_chunk_length in Hihdr, Hidat, Hiend.
  apply is_header_length in Hhdr.
  rewrite !length_app, Hihdr, Hidat, Hiend, Hhdr. simpl. lia.
Qed.

Lemma pack_I_negative n : n < 0 → pack_I n = Raise StructError.
Proof. intros Hn. unfold pack_I. by destruct (Z.leb_spec 0 n); [lia|]. Qed.

(** X10.  A width or height that does not fit an unsigned 32-bit field -
    negative, or 2^32 and above - makes the call fail with [struct.error],
    before any pixel is read. *)
Theorem make_png_bad_dimension pixels w h :
  ¬ (0 ≤ w < 2 ^ 32) ∨ ¬ (0 ≤ h < 2 ^ 32) →
  make_png pixels w h = Raise StructError.
Proof.
  intros Hbad. unfold make_png, pack_IIBBBBB.
  destruct (decide (0 ≤ w < 2 ^ 32)) as [Hw|Hw].
  - destruct (pack_I_in_range w Hw) as [wb ->]. cbn [bind].
    assert (h < 0 ∨ 2 ^ 32 ≤ h) as [Hh|Hh] by lia.
    + by rewrite pack_I_negative.
    + by rewrite pack_I_overflow.
  - assert (w < 0 ∨ 2 ^ 32 ≤ w) as [Hw'|Hw'] by lia.
    + by rewrite pack_I_negative.
    + by rewrite pack_I_overflow.
Qed.
End EncoderEdges.

Lemma for_each_ext_in {X S} (xs : list X) (f g : X → S → result S) s :
  (∀ x s, x ∈ xs → f x s = g x s) → for_each xs f s = for_each xs g s.
Proof.
  revert s. induction xs as [|x xs IH]; intros s E; simpl; [done|].
  rewrite E by left. destruct (g x s); simpl; [|done].
  apply IH. intros; apply E. by right.
Qed.

Lemma for_each_Raise {X S} (P : exn → Prop) (xs : list X) (body : X → S → result S) s e :
  (∀ x s e, body x s = Raise e → P e) → for_each xs body s = Raise e → P e.
Proof.
  intros Hbody. revert s. induction xs as [|x xs IH]; intros s; simpl; [discriminate|].
  destruct (body x s) as [t|e'] eqn:Hx; simpl.
  - apply IH.
  - intros [= <-]. by eapply Hbody.
Qed.

Lemma bytes_of_ints_Ok l bs : bytes_of_ints l = Ok bs → Forall channel l.
Proof.
  revert bs. induction l as [|v l IH]; intros bs; simpl; [by constructor|].
  destruct (Z.leb_spec 0 v); [|discriminate].
  destruct (Z.ltb_spec v 256); [|discriminate]. simpl.
  intros Hrest. apply bind_Ok in Hrest as (bs' & Hbs' & _).
  constructor; [unfold channel; lia|by eapply IH].
Qed.

Lemma bytes_of_ints_Raise l e : bytes_of_ints l = Raise e → e = ValueError.
Proof.
  induction l as [|v l IH]; simpl; [discriminate|].
  destruct ((0 <=? v) && (v <? 256)); [|by intros [= <-]].
  destruct (bytes_of_ints l); simpl; [discriminate|].
  intros [= <-]. by apply IH.
Qed.

Lemma rows_of_length rows stride data :
  length (rows_of rows stride data) = (rows + (rows * stride) `min` length data)%nat.
Proof.
  revert data. induction rows as [|rows IH]; intros data; [done|].
  cbn [rows_of]. rewrite length_cons, length_app, IH, length_take, length_drop.
  lia.
Qed.

Lemma slice_take {A} (l : list A) n i :
  0 ≤ i → i + 3 ≤ Z.of_nat n → slice (take n l) i (i + 3) = slice l i (i + 3).
Proof.
  intros Hi Hn. rewrite !slice_3 by done.
  rewrite !take_drop_commute, take_take. do 2 f_equal. lia.
Qed.

Section EncoderInput.
Context `{Zlib}.

Lemma make_raw_Raise pixels w h e : make_raw pixels w h = Raise e → e = ValueError.
Proof.
  unfold make_raw. apply (for_each_Raise (λ e, e = ValueError)). intros y raw e'.
  unfold append_row. apply (for_each_Raise (λ e, e = ValueError)). intros x acc e''.
  unfold append_pixel.
  destruct (bytes_of_ints _) eqn:Hb; simpl; [discriminate|].
  intros [= <-]. by eapply bytes_of_ints_Raise.
Qed.

Lemma make_raw_Ok_channels pixels w h raw :
  0 ≤ w → 0 ≤ h → make_raw pixels w h = Ok raw →
  ∀ (i : nat) v, Z.of_nat i < w * h * 3 → pixels !! i = Some v → channel v.
Proof.
  intros Hw Hh Hrun.
  pose (P := λ (k : Z) (_ : list byte),
    ∀ (i : nat) v, Z.of_nat i < k * 3 → pixels !! i = Some v → channel v).
  assert (P (h * w) raw) as Hall.
  { unfold make_raw in Hrun.
    apply (for_range_invariant (λ y acc, P (y * w) acc)) in Hrun; [done|lia| |].
    - intros y acc acc' Hy Hacc Hrow. unfold append_row in Hrow.
      apply (for_range_invariant (λ x q, P (y * w + x) q)) in Hrow.
      + by replace ((y + 1) * w) with (y * w + w) by lia.
      + lia.
      + intros x q q' Hx Hq Hpix. unfold append_pixel in Hpix.
        apply bind_Ok in Hpix as (px & Hpx & _).
        apply bytes_of_ints_Ok in Hpx. rewrite slice_3 in Hpx by nia.
        intros i v Hi Hv.
        destruct (decide (Z.of_nat i < (y * w + x) * 3)) as [Hold|Hnew];
          [by eapply Hq|].
        rewrite Forall_lookup in Hpx.
        apply (Hpx (i - Z.to_nat ((y * w + x) * 3))%nat).
        rewrite lookup_take_lt by nia. rewrite lookup_drop.
        rewrite <-Hv. f_equal. nia.
      + by rewrite Z.add_0_r.
    - intros i v Hi. lia. }
  intros i v Hi. apply Hall. lia.
Qed.

(** X11.  An entry of the image area that is not a byte is refused: the
    call fails with [ValueError] instead of wrapping or clipping the
    value. *)
Theorem make_png_rejects_non_bytes pixels w h (i : nat) v :
  0 ≤ w < 2 ^ 32 → 0 ≤ h < 2 ^ 32 →
  Z.of_nat i < w * h * 3 → pixels !! i = Some v → ¬ channel v →
  make_png pixels w h = Raise ValueError.
Proof.
  intros Hw Hh Hi Hv Hbad. unfold make_png.
  destruct (header_in_range w h Hw Hh) as [hdr Hhdr]. rewrite Hhdr. cbn [bind].
  apply header_Ok in Hhdr as (_ & _ & Hhdr%is_header_length).
  destruct (chunk_in_range IHDR hdr) as [ihdr ->]; [rewrite Hhdr; simpl; lia|].
  cbn [bind].
  destruct (make_raw pixels w h) as [raw|e] eqn:Hraw.
  - exfalso. apply Hbad.
    by apply (make_raw_Ok_channels pixels w h raw (proj1 Hw) (proj1 Hh) Hraw i v).
  - apply make_raw_Raise in Hraw as ->. done.
Qed.

Lemma make_raw_take pixels w h :
  0 ≤ w → 0 ≤ h →
  make_raw (take (Z.to_nat (w * h * 3)) pixels) w h = make_raw pixels w h.
Proof.
  intros Hw Hh. unfold make_raw.
  apply for_each_ext_in. intros y raw Hy%range_bounds.
  unfold append_row. apply for_each_ext_in. intros x acc Hx%range_bounds.
  unfold append_pixel. rewrite slice_take; [done|nia|nia].
Qed.

(** X12.  Only the first [w * h * 3] entries of the buffer are read:
    whatever follows them - bytes or not - changes nothing. *)
Theorem make_png_ignores_tail pixels w h :
  0 ≤ w → 0 ≤ h →
  make_png pixels w h = make_png (take (Z.to_nat (w * h * 3)) pixels) w h.
Proof.
  intros Hw Hh. unfold make_png. by rewrite make_raw_take.
Qed.

(** X13.  The buffer length is never checked.  The scanline data has one
    filter byte per row plus one byte per entry read, so with a complete
    buffer it has [h * (3 * w + 1)] bytes, and with a short buffer it is
    short by the missing entries. *)
Theorem make_raw_length pixels w h :
  Forall channel pixels → 0 ≤ w → 0 ≤ h →
  ∃ raw, make_raw pixels w h = Ok raw
         ∧ Z.of_nat (length raw) = h + Z.min (w * h * 3) (Z.of_nat (length pixels)).
Proof.
  intros Hpx Hw Hh. exists (scanlines pixels w h).
  split; [by apply make_raw_scanlines|].
  unfold scanlines. rewrite rows_of_length, length_fmap. nia.
Qed.
End EncoderInput.

Section ScriptOutcomes.
Context `{Host}.
Variable gen : string → palette → Z → Z → result (list Z).
Variable enc : list Z → Z → Z → result (list byte).

(** One record of the first pass, whatever its outcome. *)
Lemma save_one_outcome a w :
  child_runs (w_log (save_one gen enc a w).2) = child_runs (w_log w)
  ∧ (∀ p, p ≠ png_path (uuid_of a) →
          w_files (save_one gen enc a w).2 !! p = w_files w !! p)
  ∧ (∀ e, render gen enc a = Raise e → (save_one gen enc a w).1 = Raise e).
Proof.
  destruct a as [[uuid style] colors].
  unfold save_one, render, style_of, uuid_of, print, lift, write_file, emit,
    mbind, io_bind. simpl.
  destruct (gen style colors SIZE SIZE) as [pixels|e]; simpl.
  - destruct (enc pixels SIZE SIZE) as [png|e]; simpl.
    + destruct (open_wb _ _); simpl.
      * rewrite !child_runs_app. simpl. rewrite !app_nil_r.
        split; [done|]. split; [|discriminate].
        intros p Hp. by rewrite lookup_insert_ne.
      * rewrite child_runs_app. simpl. rewrite app_nil_r.
        split; [done|]. split; [done|discriminate].
    + rewrite child_runs_app. simpl. rewrite app_nil_r.
      split; [done|]. split; [done|]. by intros ? [= <-].
  - rewrite child_runs_app. simpl. rewrite app_nil_r.
    split; [done|]. split; [done|]. by intros ? [= <-].
Qed.

Lemma upload_one_files a w : w_files (upload_one a w).2 = w_files w.
Proof.
  destruct a as [[uuid style] colors].
  unfold upload_one, subprocess_run, print, emit, mbind, io_bind.
  by destruct (run_child _ _) as [[out|]|].
Qed.




Lemma save_pass_failure xs a e w :
  a ∈ xs → render gen enc a = Raise e →
  ∃ e' w',
    for_io xs (save_one gen enc) w = (Raise e', w')
    ∧ child_runs (w_log w') = child_runs (w_log w).
Proof.
  intros Ha Hfail. revert w. induction xs as [|x xs IH]; intros w.
  { by apply elem_of_nil in Ha. }
  rewrite for_io_cons.
  destruct (save_one_outcome x w) as (Hruns & _ & Hraise).
  destruct (save_one gen enc x w) as [[[]|e1] w1] eqn:Hx; simpl in *.
  - apply elem_of_cons in Ha as [->|Ha].
    + by specialize (Hraise e Hfail).
    + destruct (IH Ha w1) as (e' & w' & -> & Hsame).
      exists e', w'. split; [done|]. by rewrite Hsame.
  - by exists e1, w1.
Qed.

Lemma save_pass_files xs w p :
  p ∉ (λ a, png_path (uuid_of a)) <$> xs →
  w_files (for_io xs (save_one gen enc) w).2 !! p = w_files w !! p.
Proof.
  revert w. induction xs as [|x xs IH]; intros w Hp; [done|].
  simpl in Hp. apply not_elem_of_cons in Hp as [Hne Hp].
  rewrite for_io_cons.
  destruct (save_one_outcome x w) as (_ & Hfiles & _).
  specialize (Hfiles p Hne).
  destruct (save_one gen enc x w) as [[[]|e1] w1]; simpl in *.
  - by rewrite IH.
  - done.
Qed.

Lemma upload_pass_files xs w : w_files (for_io xs upload_one w).2 = w_files w.
Proof.
  revert w. induction xs as [|x xs IH]; intros w; [done|].
  rewrite for_io_cons. pose proof (upload_one_files x w) as Hx.
  destruct (upload_one x w) as [[[]|e1] w1]; simpl in *.
  - by rewrite IH.
  - done.
Qed.

(** X14.  When any record fails to render, the run fails and no upload
    is started - not even for the records that were saved before the
    failure. *)
Theorem main_save_failure_uploads_nothing a e w0 :
  a ∈ ARTWORKS → render gen enc a = Raise e →
  ∃ e' w1,
    main_with gen enc w0 = (Raise e', w1)
    ∧ child_runs (w_log w1) = child_runs (w_log w0).
Proof.
  intros Ha Hfail.
  destruct (save_pass_failure ARTWORKS a e w0 Ha Hfail) as (e' & w1 & Hrun & Hsame).
  exists e', w1. split; [|done].
  unfold main_with, mbind, io_bind. by rewrite Hrun.
Qed.


(** X16.  Whatever the outcome of a run, the only files it creates or
    changes are the image files of the table, in the script directory. *)
Theorem main_other_files_untouched w0 p :
  p ∉ (λ a, png_path (uuid_of a)) <$> ARTWORKS →
  w_files (main_with gen enc w0).2 !! p = w_files w0 !! p.
Proof.
  intros Hp. rewrite <-(save_pass_files ARTWORKS w0 p Hp).
  unfold main_with, mbind, io_bind.
  destruct (for_io ARTWORKS (save_one gen enc) w0) as [[[]|e] wa]; [|done].
  unfold print at 1.
  pose proof (upload_pass_files ARTWORKS (emit (EPrint (nl +:+ "Uploading to MinIO...")) wa))
    as Hup.
  destruct (for_io ARTWORKS upload_one _) as [[[]|e] wb]; simpl in *; by rewrite Hup.
Qed.

End ScriptOutcomes.

Lemma float_mul_nan d : (d * PrimFloat.nan)%float = PrimFloat.nan.
Proof.
  apply Prim2SF_inj. rewrite mul_spec.
  change (Prim2SF PrimFloat.nan) with S754_nan.
  unfold SF64mul, SFmul. by destruct (Prim2SF d).
Qed.

Lemma float_add_nan a : (a + PrimFloat.nan)%float = PrimFloat.nan.
Proof.
  apply Prim2SF_inj. rewrite add_spec.
  change (Prim2SF PrimFloat.nan) with S754_nan.
  unfold SF64add, SFadd. by destruct (Prim2SF a).
Qed.

Lemma lerp_channel_nan a b :
  is_Ok (lerp_channel a b PrimFloat.nan) = false
  ∧ (channel a → channel b → lerp_channel a b PrimFloat.nan = Raise ValueError).
Proof.
  assert (∀ d a', int_of_float (a' + d * PrimFloat.nan)%float = Raise ValueError) as Hnan.
  { intros d a'. by rewrite float_mul_nan, float_add_nan. }
  split.
  - unfold lerp_channel.
    destruct (float_of_int (b - a)) as [d|]; [|done]. cbn [bind].
    destruct (float_of_int a) as [a'|]; [|done]. cbn [bind].
    by rewrite Hnan.
  - intros Ha Hb.
    assert (forallb (λ n, is_Ok (float_of_int n)) (seqZ (-255) 511) = true) as Hall
      by (vm_compute; reflexivity).
    rewrite forallb_forall in Hall.
    assert (∀ n, -255 ≤ n ≤ 255 → ∃ f, float_of_int n = Ok f) as Hconv.
    { intros n Hn. specialize (Hall n).
      destruct (float_of_int n) as [f|]; [by eauto|].
      discriminate Hall.
      apply list_elem_of_In, list_elem_of_lookup. exists (Z.to_nat (n + 255)).
      rewrite lookup_seqZ. lia. }
    unfold channel in Ha, Hb. unfold lerp_channel.
    destruct (Hconv (b - a)) as [d ->]; [lia|].
    destruct (Hconv a) as [a' ->]; [lia|]. cbn [bind]. apply Hnan.
Qed.

(** X18.  A weight that is not a number is an error, not a colour: the
    interpolation never returns on NaN, and between RGB colours the
    exception is [ValueError], raised by [int]. *)
Theorem lerp_color_nan c1 c2 :
  is_Ok (lerp_color c1 c2 PrimFloat.nan) = false
  ∧ (rgb_channels c1 → rgb_channels c2 →
     lerp_color c1 c2 PrimFloat.nan = Raise ValueError).
Proof.
  destruct c1 as [[r1 g1] b1], c2 as [[r2 g2] b2]. unfold lerp_color. split.
  - destruct (lerp_channel_nan r1 r2) as [Hr _].
    by destruct (lerp_channel r1 r2 PrimFloat.nan).
  - intros (Hr1 & _) (Hr2 & _). simpl in Hr1, Hr2.
    destruct (lerp_channel_nan r1 r2) as [_ ->]; done.
Qed.

(* ===================================================================== *)
(** * Part V: the statements at concrete inputs *)
(* ===================================================================== *)

Lemma make_png_round_trip_witness :
  ∃ s, @make_png Stored.zlib tiny_pixels 2 2 = Ok s
       ∧ @png_decode Stored.zlib s
         = Some {| img_width := 2; img_height := 2; img_bit_depth := 8;
                   img_color_type := 2; img_pixels := tiny_pixels |}
       ∧ make_raw tiny_pixels 2 2 = Ok (scanlines tiny_pixels 2 2).
Proof.
  apply (make_png_round_trip (H:=Stored.zlib) tiny_pixels 2 2).
  - unfold PNG_INT_MAX. lia.
  - unfold PNG_INT_MAX. lia.
  - reflexivity.
  - unfold tiny_pixels, channel. repeat constructor; lia.
  - vm_compute. discriminate.
  - vm_compute. reflexivity.
Defined.

(** C1, as stated, fails: at width 2^32 the header cannot be packed and no
    stream is produced, for a buffer of the right length whose entries are
    all bytes. *)
Lemma make_png_round_trip_unbounded_fails :
  let w := 2 ^ 32 in
  let h := 1 in
  let pixels := replicate (Z.to_nat (w * h * 3)) 0 in
  ¬ (1 ≤ w → 1 ≤ h → Z.of_nat (length pixels) = w * h * 3 → Forall channel pixels →
     ∃ s, @make_png Stored.zlib pixels w h = Ok s
          ∧ @png_decode Stored.zlib s
            = Some {| img_width := w; img_height := h; img_bit_depth := 8;
                      img_color_type := 2; img_pixels := pixels |}).
Proof.
  intros w h pixels Hclaim.
  destruct Hclaim as (s & Hs & _).
  - unfold w. lia.
  - unfold h. lia.
  - unfold pixels. rewrite length_replicate. apply Z2Nat.id. unfold w, h. lia.
  - apply Forall_replicate. unfold channel. lia.
  - rewrite (make_png_too_wide (H:=Stored.zlib)) in Hs by (unfold w; lia).
    discriminate Hs.
Qed.


Lemma generate_artwork_channels_witness :
  ∃ buf, @generate_artwork Soft.runtime "sunset" SUNSET_PALETTE 2 4 = Ok buf
         ∧ Forall channel buf.
Proof.
  eexists. split; [vm_compute; reflexivity|].
  apply (generate_artwork_channels (H:=Soft.runtime) "sunset" SUNSET_PALETTE 2 4).
  - simpl. tauto.
  - lia.
  - lia.
  - vm_compute. reflexivity.
Defined.

Lemma generate_artwork_length_witness :
  ∃ buf, @generate_artwork Soft.runtime "cosmic" SUNSET_PALETTE 3 2 = Ok buf
         ∧ Z.of_nat (length buf) = 3 * 2 * 3.
Proof.
  eexists. split; [vm_compute; reflexivity|].
  apply (generate_artwork_length (H:=Soft.runtime) "cosmic" SUNSET_PALETTE 3 2).
  - simpl. tauto.
  - lia.
  - lia.
  - vm_compute. reflexivity.
Defined.

Lemma sunset_sun_centre_closer_witness :
  ∃ p q,
    @pixel_color Soft.runtime "sunset" SUNSET_PALETTE 512 512 256 204 = Ok (Some p)
    ∧ @pixel_color Soft.runtime "sunset" SUNSET_PALETTE 512 512 0 0 = Ok (Some q)
    ∧ rgb_dist2 (clamp_rgb p) SUN < rgb_dist2 (clamp_rgb q) SUN
    ∧ ∀ buf, @generate_artwork Soft.runtime "sunset" SUNSET_PALETTE 512 512 = Ok buf →
        stored_at buf 512 256 204 = Some (clamp_rgb p)
        ∧ stored_at buf 512 0 0 = Some (clamp_rgb q).
Proof.
  apply (sunset_sun_centre_closer (H:=Soft.runtime)).
  split.
  - intros x _. exists (x * x)%float. split; [reflexivity|]. left. reflexivity.
  - intros t Ht _. exists (PrimFloat.sqrt t). split.
    + unfold float_pow, Soft.runtime, Soft.pow.
      change (0.5 =? 2)%float with false. change (0.5 =? 0.5)%float with true.
      cbv iota. rewrite Ht. reflexivity.
    + left. reflexivity.
Defined.

Lemma retro_centre_cell_is_sprite_witness :
  ∃ buf c,
    @generate_artwork Soft.runtime "retro" ((0, 200, 0), (200, 0, 200), (50, 50, 50)) 512 512
      = Ok buf
    ∧ stored_at buf 512 260 263 = Some c
    ∧ c = clamp_rgb (0, 200, 0)
    ∧ (clamp_rgb (0, 200, 0) ≠ (40, 40, 40) → clamp_rgb (0, 200, 0) ≠ (50, 50, 50) →
       c ≠ (40, 40, 40) ∧ c ≠ (50, 50, 50))
    ∧ (∀ uuid, In (uuid, "retro", ((0, 200, 0), (200, 0, 200), (50, 50, 50))) ARTWORKS →
       c ≠ (40, 40, 40) ∧ c ≠ (50, 50, 50)).
Proof.
  apply (retro_centre_cell_is_sprite (H:=Soft.runtime)
           ((0, 200, 0), (200, 0, 200), (50, 50, 50)) 260 263).
  - reflexivity.
  - reflexivity.
Defined.

(** C9, as stated, fails: the claim leaves the palette free, and with a
    palette whose first colour is the checkerboard colour (40, 40, 40) the
    centre cell holds exactly that colour. *)
Lemma retro_centre_cell_can_be_background :
  let colors := ((40, 40, 40), (200, 0, 200), (50, 50, 50)) in
  (∃ buf, @generate_artwork Soft.runtime "retro" colors 512 512 = Ok buf
          ∧ stored_at buf 512 256 256 = Some (40, 40, 40))
  ∧ ¬ (∀ buf c, @generate_artwork Soft.runtime "retro" colors 512 512 = Ok buf →
         stored_at buf 512 256 256 = Some c →
         c ≠ (40, 40, 40) ∧ c ≠ (50, 50, 50)).
Proof.
  intros colors.
  destruct (retro_centre_cell_head (H:=Soft.runtime) colors 256 256 eq_refl eq_refl)
    as (buf & Hbuf & Hst).
  change (clamp_rgb colors.1.1) with ((40, 40, 40) : rgb) in Hst.
  split.
  - exists buf. split; [exact Hbuf|exact Hst].
  - intros Hclaim. destruct (Hclaim buf (40, 40, 40) Hbuf Hst) as [H40 _].
    apply H40. reflexivity.
Qed.

Lemma generate_artwork_unknown_style_witness :
  @generate_artwork Soft.runtime "mosaic" SUNSET_PALETTE 512 512 = Raise UnboundLocalError.
Proof.
  apply (generate_artwork_unknown_style (H:=Soft.runtime) "mosaic" SUNSET_PALETTE 512 512).
  - simpl. intros Hin. repeat (destruct Hin as [Hin|Hin]; [discriminate Hin|]). exact Hin.
  - lia.
  - lia.
Defined.

Lemma pair_from_fst {A B} (p : A * B) (a : A) : p.1 = a → p = (a, p.2).
Proof. intros <-. by destruct p. Defined.

Lemma demo_run_completes :
  @main_with demo_host blank_gen blank_enc empty_world = (Ok (), demo_run.2).
Proof. apply pair_from_fst. vm_compute. reflexivity. Defined.

Lemma main_two_passes_witness :
  ∃ pngs outs,
    Forall2 (λ a png, render blank_gen blank_enc a = Ok png) ARTWORKS pngs
    ∧ length outs = length ARTWORKS
    ∧ w_log demo_run.2
      = w_log empty_world
        ++ concat (zip_with (@save_events demo_host) ARTWORKS pngs)
        ++ [EPrint (nl +:+ "Uploading to MinIO...")]
        ++ concat (zip_with (@upload_events demo_host (w_files demo_run.2)) ARTWORKS outs)
        ++ [EPrint (nl +:+ "Done!")].
Proof.
  apply (main_two_passes (H:=demo_host) blank_gen blank_enc empty_world demo_run.2).
  exact demo_run_completes.
Defined.

(** C6, as stated, fails: the run above completes, and in it the second
    record is written before the first is uploaded. *)
Lemma main_not_one_at_a_time :
  ¬ (∀ (H : Host) gen enc w0 w1,
       @main_with H gen enc w0 = (Ok (), w1) → @one_at_a_time H (w_log w1)).
Proof.
  intros Hclaim.
  apply (main_writes_before_uploads (H:=demo_host) blank_gen blank_enc
           empty_world demo_run.2 demo_run_completes).
  apply (Hclaim demo_host blank_gen blank_enc empty_world). exact demo_run_completes.
Qed.

Lemma main_uploads_each_png_witness :
  ∃ pngs disk,
    Forall2 (λ a png, render blank_gen blank_enc a = Ok png) ARTWORKS pngs
    ∧ child_runs (drop (length (w_log empty_world)) (w_log demo_run.2))
      = (λ a, (@put_command demo_host (uuid_of a), disk)) <$> ARTWORKS
    ∧ Forall2 (λ a png, disk !! @png_path demo_host (uuid_of a) = Some png) ARTWORKS pngs
    ∧ object_key "b0000001-0000-0000-0000-000000000001"
      = "artworks/b0000001-0000-0000-0000-000000000001.png".
Proof.
  apply (main_uploads_each_png (H:=demo_host) blank_gen blank_enc empty_world demo_run.2).
  exact demo_run_completes.
Defined.

Lemma generate_artwork_row_major_witness :
  ∃ r g b,
    @pixel_color Soft.runtime "cube" SUNSET_PALETTE 3 2 2 1 = Ok (Some (r, g, b))
    ∧ [40; 20; 80; 40; 20; 80; 40; 20; 80; 30; 20; 60; 255; 80; 120; 255; 120; 50]
        !! Z.to_nat ((1 * 3 + 2) * 3) = Some (clamp r)
    ∧ [40; 20; 80; 40; 20; 80; 40; 20; 80; 30; 20; 60; 255; 80; 120; 255; 120; 50]
        !! Z.to_nat ((1 * 3 + 2) * 3 + 1) = Some (clamp g)
    ∧ [40; 20; 80; 40; 20; 80; 40; 20; 80; 30; 20; 60; 255; 80; 120; 255; 120; 50]
        !! Z.to_nat ((1 * 3 + 2) * 3 + 2) = Some (clamp b).
Proof.
  apply (generate_artwork_row_major (H:=Soft.runtime) "cube" SUNSET_PALETTE 3 2).
  - vm_compute. reflexivity.
  - lia.
  - lia.
Defined.

Lemma generate_artwork_returns_iff_witness :
  (∃ buf, @generate_artwork Soft.runtime "retro" SUNSET_PALETTE 2 2 = Ok buf)
  ↔ (∀ x y, 0 ≤ x < 2 → 0 ≤ y < 2 →
       ∃ c, @pixel_color Soft.runtime "retro" SUNSET_PALETTE 2 2 x y = Ok (Some c)).
Proof.
  apply (generate_artwork_returns_iff (H:=Soft.runtime) "retro" SUNSET_PALETTE 2 2); lia.
Defined.

Lemma generate_artwork_degenerate_witness :
  @generate_artwork Soft.runtime "mosaic" SUNSET_PALETTE (-2) (-3)
  = Ok (replicate (Z.to_nat (-2 * -3 * 3)) 0).
Proof.
  apply (generate_artwork_degenerate (H:=Soft.runtime) "mosaic" SUNSET_PALETTE (-2) (-3)).
  left. lia.
Defined.

Lemma retro_image_symmetric_witness :
  ∃ buf,
    @generate_artwork Soft.runtime "retro" SUNSET_PALETTE SIZE SIZE = Ok buf
    ∧ stored_at buf SIZE 500 7 = stored_at buf SIZE 20 10.
Proof.
  apply (retro_image_symmetric (H:=Soft.runtime) SUNSET_PALETTE 20 10 500 7);
    [lia | lia | lia | lia | right; reflexivity | left; reflexivity].
Defined.

Lemma generate_artwork_moscow_returns_witness :
  ∃ buf, @generate_artwork Soft.runtime "moscow" SUNSET_PALETTE SIZE SIZE = Ok buf.
Proof.
  apply (generate_artwork_moscow_returns (H:=Soft.runtime) SUNSET_PALETTE).
  unfold rgb_channels, channel. simpl. lia.
Defined.

Lemma lerp_color_endpoints_witness :
  lerp_color (255, 120, 50) (40, 20, 80) 0 = Ok (255, 120, 50)
  ∧ lerp_color (255, 120, 50) (40, 20, 80) 1 = Ok (40, 20, 80).
Proof.
  apply (lerp_color_endpoints (255, 120, 50) (40, 20, 80));
    unfold rgb_channels, channel; simpl; lia.
Defined.

Lemma make_png_length_witness :
  ∃ s raw,
    @make_png Stored.zlib tiny_pixels 2 2 = Ok s
    ∧ make_raw tiny_pixels 2 2 = Ok raw
    ∧ length s = (57 + length (Stored.compress raw))%nat.
Proof.
  assert (∃ s, @make_png Stored.zlib tiny_pixels 2 2 = Ok s) as [s Hs]
    by (eexists; vm_compute; reflexivity).
  destruct (make_png_length (H:=Stored.zlib) tiny_pixels 2 2 s Hs) as (raw & Hraw & Hlen).
  exists s, raw. split; [exact Hs|]. split; [exact Hraw|exact Hlen].
Defined.

Lemma make_png_bad_dimension_witness :
  @make_png Stored.zlib tiny_pixels (-1) 2 = Raise StructError.
Proof.
  apply (make_png_bad_dimension (H:=Stored.zlib) tiny_pixels (-1) 2). left. lia.
Defined.

Lemma make_png_rejects_non_bytes_witness :
  @make_png Stored.zlib [0; 300; 0] 1 1 = Raise ValueError.
Proof.
  apply (make_png_rejects_non_bytes (H:=Stored.zlib) [0; 300; 0] 1 1 1%nat 300);
    [lia | lia | lia | reflexivity | unfold channel; lia].
Defined.

Lemma make_png_ignores_tail_witness :
  @make_png Stored.zlib (tiny_pixels ++ [999]) 2 2
  = @make_png Stored.zlib (take (Z.to_nat (2 * 2 * 3)) (tiny_pixels ++ [999])) 2 2.
Proof.
  apply (make_png_ignores_tail (H:=Stored.zlib) (tiny_pixels ++ [999]) 2 2); lia.
Defined.

Lemma make_raw_length_witness :
  ∃ raw, make_raw [1; 2; 3; 4] 2 1 = Ok raw
         ∧ Z.of_nat (length raw) = 1 + Z.min (2 * 1 * 3) (Z.of_nat (length [1; 2; 3; 4])).
Proof.
  apply (make_raw_length [1; 2; 3; 4] 2 1); [|lia|lia].
  unfold channel. repeat constructor; lia.
Defined.

Lemma main_save_failure_uploads_nothing_witness :
  ∃ e' w1,
    @main_with demo_host
      (λ style _ _ _, if String.eqb style "retro" then Raise TypeError else Ok [])
      blank_enc empty_world = (Raise e', w1)
    ∧ child_runs (w_log w1) = child_runs (w_log empty_world).
Proof.
  apply (main_save_failure_uploads_nothing (H:=demo_host) _ blank_enc
           ("b0000001-0000-0000-0000-000000000005", "retro",
            ((0, 200, 0), (200, 0, 200), (50, 50, 50))) TypeError empty_world).
  - unfold ARTWORKS. do 4 right. left.
  - reflexivity.
Defined.


Lemma main_other_files_untouched_witness :
  w_files (@main_with demo_host blank_gen blank_enc empty_world).2 !! "/etc/hosts"
  = w_files empty_world !! "/etc/hosts".
Proof.
  apply (main_other_files_untouched (H:=demo_host) blank_gen blank_enc empty_world
           "/etc/hosts").
  apply (bool_decide_unpack _). vm_compute. exact I.
Defined.

